(** * solid-alien-signals: the resource engine ([createResource])

    A shallow embedding of [createResource] and of the helpers it is built
    from ([createSignal], [batch], [castError]), together with the part of
    the JavaScript run time the engine talks to: promises, their [then]
    reactions and the microtask queue.

    The reactive graph of alien-signals is an external collaborator.  The
    engine only reads and writes three cells through it, so a cell is a
    field of the world and a write is a field update; dependency tracking
    ([untrack]) and notification ([startBatch]/[endBatch]) never change a
    cell's value.  Every write and every batch boundary is recorded in a
    log, so that statements about "which writes, inside which batch" can
    be made.  The default storage ([createSignal]) is modelled; a custom
    [options.storage] is not.  The fetcher and the subscribers of the cells
    are taken not to call back into the resource while it runs, and not to
    throw out of [endBatch]; the continuations of [load] are given a second
    time with subscribers that may throw ([continuation_flushed]). *)

From Stdlib Require Import List String ZArith Bool Lia.
From Stdlib Require Import DecimalString.
Import ListNotations.
Local Open Scope string_scope.
Local Open Scope list_scope.

(** ** JavaScript values *)

(** A promise is known by its identity.  [Fetched n] is a promise made by
    the caller's code (what a fetcher returns); [Chained p n] is the promise
    returned by the [n]-th call [p.then(...)] made by the engine. *)
Inductive handle : Type :=
| Fetched (n : nat)
| Chained (p : handle) (n : nat).

(** Numbers are integers here; plain records are known by reference; an
    [Error] instance carries its message and its [cause] (undefined when it
    was built without one). *)
Inductive val : Type :=
| VUndefined
| VNull
| VBool (b : bool)
| VNum (z : Z)
| VStr (s : string)
| VObject (ref : nat)
| VError (message : string) (cause : val)
| VPromise (h : handle).

Definition handle_eq_dec (a b : handle) : {a = b} + {a <> b}.
Proof. decide equality; apply Nat.eq_dec. Defined.

Definition val_eq_dec (a b : val) : {a = b} + {a <> b}.
Proof.
  decide equality;
    try apply Nat.eq_dec; try apply string_dec; try apply Z.eq_dec;
    try apply Bool.bool_dec; apply handle_eq_dec.
Defined.

Arguments handle_eq_dec : simpl never.
Arguments val_eq_dec : simpl never.

(** [a === b] *)
Definition strict_eq (a b : val) : bool :=
  if val_eq_dec a b then true else false.

(** [v === undefined] *)
Definition is_undefined (v : val) : bool :=
  match v with VUndefined => true | _ => false end.

(** [v == null] *)
Definition loose_eq_null (v : val) : bool :=
  match v with VUndefined | VNull => true | _ => false end.

(** [v instanceof Error] *)
Definition instanceof_Error (v : val) : bool :=
  match v with VError _ _ => true | _ => false end.

(** ToBoolean *)
Definition truthy (v : val) : bool :=
  match v with
  | VUndefined | VNull => false
  | VBool b => b
  | VNum z => negb (Z.eqb z 0)
  | VStr s => negb (String.eqb s "")
  | VObject _ | VError _ _ | VPromise _ => true
  end.

(** [String(v)] *)
Definition String_ (v : val) : string :=
  match v with
  | VUndefined => "undefined"
  | VNull => "null"
  | VBool true => "true"
  | VBool false => "false"
  | VNum z => NilEmpty.string_of_int (Z.to_int z)
  | VStr s => s
  | VObject _ => "[object Object]"
  | VError m _ => if String.eqb m "" then "Error" else ("Error: " ++ m)%string
  | VPromise _ => "[object Promise]"
  end.

(** How a call ends: with a value, or by throwing one. *)
Inductive completion : Type :=
| Normal (v : val)
| Throw (v : val).

(** ** The types of the module *)

Inductive ResourceState : Type :=
| unresolved | pending | ready | refreshing | errored.

Definition ResourceState_eq_dec (a b : ResourceState) : {a = b} + {a <> b}.
Proof. decide equality. Defined.

Record ResourceFetcherInfo : Type := mkInfo {
  value : val;
  refetching : val
}.

(** A fetcher is the caller's code.  One invocation is a function of the
    key and the info record; a fetcher with a memory of its own is a
    different such function at each invocation. *)
Definition ResourceFetcher : Type := val -> ResourceFetcherInfo -> completion.

(** ** Promises and the microtask queue *)

Inductive settlement : Type :=
| Fulfilled (v : val)
| Rejected (e : val).

(** A [then] registered by [load] on the promise [on], for the source key
    [key]; [derived] numbers the promise that [then] returned. *)
Record reaction : Type := mkReaction {
  on : handle;
  key : val;
  derived : nat
}.

Inductive job : Type :=
| ClearScheduled                                (* () => (scheduled = false) *)
| React (r : reaction) (s : settlement).        (* a reaction whose promise has settled *)

Inductive event : Type :=
| StartBatch
| EndBatch
| SetData (v : val)
| SetState (s : ResourceState)
| SetError (e : val)
| FetcherCall (k : val) (info : ResourceFetcherInfo).

(** ** The world: one resource and the run time around it *)

Record world : Type := mkWorld {
  (* the three reactive cells *)
  data : val;
  error : val;
  state : ResourceState;
  (* the variables closed over by createResource *)
  currentPromise : option handle;
  resolved : bool;
  scheduled : bool;
  (* the memo over the source: None when there is no source function,
     Some v when the memo currently evaluates to v *)
  dynamic : option val;
  (* the run time *)
  microtasks : list job;                       (* oldest first *)
  reactions : list reaction;                   (* waiting for their promise *)
  settled : list (handle * settlement);
  nextId : nat;
  (* what happened, most recent first *)
  log : list event
}.

Definition with_data (v : val) (w : world) : world :=
  mkWorld v (error w) (state w) (currentPromise w) (resolved w) (scheduled w)
          (dynamic w) (microtasks w) (reactions w) (settled w) (nextId w) (log w).
Definition with_error (v : val) (w : world) : world :=
  mkWorld (data w) v (state w) (currentPromise w) (resolved w) (scheduled w)
          (dynamic w) (microtasks w) (reactions w) (settled w) (nextId w) (log w).
Definition with_state (s : ResourceState) (w : world) : world :=
  mkWorld (data w) (error w) s (currentPromise w) (resolved w) (scheduled w)
          (dynamic w) (microtasks w) (reactions w) (settled w) (nextId w) (log w).
Definition with_currentPromise (p : option handle) (w : world) : world :=
  mkWorld (data w) (error w) (state w) p (resolved w) (scheduled w)
          (dynamic w) (microtasks w) (reactions w) (settled w) (nextId w) (log w).
Definition with_resolved (b : bool) (w : world) : world :=
  mkWorld (data w) (error w) (state w) (currentPromise w) b (scheduled w)
          (dynamic w) (microtasks w) (reactions w) (settled w) (nextId w) (log w).
Definition with_scheduled (b : bool) (w : world) : world :=
  mkWorld (data w) (error w) (state w) (currentPromise w) (resolved w) b
          (dynamic w) (microtasks w) (reactions w) (settled w) (nextId w) (log w).
Definition with_dynamic (d : option val) (w : world) : world :=
  mkWorld (data w) (error w) (state w) (currentPromise w) (resolved w) (scheduled w)
          d (microtasks w) (reactions w) (settled w) (nextId w) (log w).
Definition with_microtasks (q : list job) (w : world) : world :=
  mkWorld (data w) (error w) (state w) (currentPromise w) (resolved w) (scheduled w)
          (dynamic w) q (reactions w) (settled w) (nextId w) (log w).
Definition with_reactions (r : list reaction) (w : world) : world :=
  mkWorld (data w) (error w) (state w) (currentPromise w) (resolved w) (scheduled w)
          (dynamic w) (microtasks w) r (settled w) (nextId w) (log w).
Definition with_settled (s : list (handle * settlement)) (w : world) : world :=
  mkWorld (data w) (error w) (state w) (currentPromise w) (resolved w) (scheduled w)
          (dynamic w) (microtasks w) (reactions w) s (nextId w) (log w).
Definition with_nextId (n : nat) (w : world) : world :=
  mkWorld (data w) (error w) (state w) (currentPromise w) (resolved w) (scheduled w)
          (dynamic w) (microtasks w) (reactions w) (settled w) n (log w).
Definition with_log (l : list event) (w : world) : world :=
  mkWorld (data w) (error w) (state w) (currentPromise w) (resolved w) (scheduled w)
          (dynamic w) (microtasks w) (reactions w) (settled w) (nextId w) l.

(** ** A state monad over the world *)

Definition M (A : Type) : Type := world -> A * world.

Definition ret {A : Type} (a : A) : M A := fun w => (a, w).

Definition bind {A B : Type} (m : M A) (k : A -> M B) : M B :=
  fun w => let (a, w') := m w in k a w'.

Definition gets {A : Type} (f : world -> A) : M A := fun w => (f w, w).

Definition modify (f : world -> world) : M unit := fun w => (tt, f w).

Declare Scope js_scope.
Delimit Scope js_scope with js.
Notation "x <- m ;; k" := (bind m (fun x => k))
  (at level 61, m at next level, right associativity) : js_scope.
Notation "m ;; k" := (bind m (fun _ => k))
  (at level 61, right associativity) : js_scope.
Local Open Scope js_scope.

Definition emit (e : event) : M unit :=
  modify (fun w => with_log (e :: log w) w).

Definition when (b : bool) (m : M unit) : M unit :=
  if b then m else ret tt.

(** ** [batch], [untrack] and the cells *)

(** [batch(fn)]: [startBatch(); try { fn() } finally { endBatch() }].  The
    blocks the engine batches do not throw. *)
Definition batch (fnToBatch : M unit) : M unit :=
  emit StartBatch ;; fnToBatch ;; emit EndBatch.

(** [untrack(fn)] switches the current subscriber off around [fn]; the
    value of [fn] is unchanged. *)
Definition untrack {A : Type} (fn : M A) : M A := fn.

(** The setter of [createSignal]: writes the cell and returns what the cell
    then holds. *)
Definition setData (v : val) : M val :=
  emit (SetData v) ;; modify (with_data v) ;; untrack (gets data).

Definition setError (v : val) : M val :=
  emit (SetError v) ;; modify (with_error v) ;; untrack (gets error).

Definition setState (s : ResourceState) : M ResourceState :=
  emit (SetState s) ;; modify (with_state s) ;; untrack (gets state).

(** ** Error normalization *)

(** [castError(err)]: [new Error(message, { cause: err })] unless [err] is
    an error already. *)
Definition castError (err : val) : val :=
  if instanceof_Error err then err
  else VError (match err with VStr s => s | _ => "Unknown error" end) err.

(** ** Finalization *)

(** [completeLoad(v, err)] *)
Definition completeLoad (v err : val) : M unit :=
  batch (
    when (is_undefined err) (setData v ;; ret tt) ;;
    r <- gets resolved ;;
    setState (if negb (is_undefined err) then errored
              else if r then ready else unresolved) ;;
    setError err ;;
    ret tt).

(** [currentPromise === p], on promises or null. *)
Definition same_promise (a b : option handle) : bool :=
  match a, b with
  | None, None => true
  | Some x, Some y => if handle_eq_dec x y then true else false
  | _, _ => false
  end.

(** [loadEnd(p, v, err, key)]; an argument left out is [VUndefined]. *)
Definition loadEnd (p : option handle) (v err key : val) : M val :=
  cur <- gets currentPromise ;;
  when (same_promise cur p) (
    modify (with_currentPromise None) ;;
    when (negb (is_undefined key)) (modify (with_resolved true)) ;;
    completeLoad v err) ;;
  ret v.

(** ** Reading *)

(** [read()], the resource called as a function. *)
Definition read (w : world) : completion :=
  let err := error w in
  let currentState := state w in
  if negb (is_undefined err) &&
     (if ResourceState_eq_dec currentState errored then true else false)
  then Throw err
  else Normal (data w).

(** The getter of [loading]. *)
Definition loading (w : world) : bool :=
  match state w with
  | pending | refreshing => true
  | _ => false
  end.

(** The getter of [latest]. *)
Definition latest (w : world) : completion :=
  if negb (resolved w) then read w
  else
    let err := error w in
    if truthy err && (match currentPromise w with None => true | Some _ => false end)
    then Throw err
    else Normal (data w).

(** ** Promises *)

Fixpoint lookup (h : handle) (tbl : list (handle * settlement)) : option settlement :=
  match tbl with
  | [] => None
  | (h', s) :: rest => if handle_eq_dec h h' then Some s else lookup h rest
  end.

(** [isPromise(v)]: among the values modelled, the objects with a [then]
    are the promises.  [as_promise] is the type guard: the promise that [v]
    is, if it is one. *)
Definition as_promise (v : val) : option handle :=
  match v with VPromise h => Some h | _ => None end.

Definition isPromise (v : val) : bool :=
  match as_promise v with Some _ => true | None => false end.

Definition queueMicrotask (j : job) : M unit :=
  modify (fun w => with_microtasks (microtasks w ++ [j]) w).

Definition waits_on (h : handle) (r : reaction) : bool :=
  if handle_eq_dec (on r) h then true else false.

(** Settling a promise.  A promise settles once; its reactions become
    microtasks, in the order they were registered. *)
Definition settle (h : handle) (s : settlement) : M unit :=
  tbl <- gets settled ;;
  match lookup h tbl with
  | Some _ => ret tt
  | None =>
      rs <- gets reactions ;;
      modify (with_settled ((h, s) :: tbl)) ;;
      modify (with_reactions (filter (fun r => negb (waits_on h r)) rs)) ;;
      modify (fun w => with_microtasks
                (microtasks w ++ map (fun r => React r s) (filter (waits_on h) rs)) w)
  end.

(** [p.then(onFulfilled, onRejected)] with the two continuations of [load]:
    the reaction is queued at once when [p] has settled, and kept otherwise;
    the promise returned is a new one. *)
Definition promise_then (p : handle) (lookupKey : val) : M val :=
  n <- gets nextId ;;
  modify (with_nextId (S n)) ;;
  tbl <- gets settled ;;
  let r := mkReaction p lookupKey n in
  match lookup p tbl with
  | Some s => queueMicrotask (React r s)
  | None => modify (fun w => with_reactions (reactions w ++ [r]) w)
  end ;;
  ret (VPromise (Chained p n)).

(** The two continuations:
    [(value) => loadEnd(result, value, undefined, lookup)] and
    [(err) => loadEnd(result, undefined, castError(err), lookup)]. *)
Definition continuation (r : reaction) (s : settlement) : M completion :=
  match s with
  | Fulfilled v =>
      x <- loadEnd (Some (on r)) v VUndefined (key r) ;; ret (Normal x)
  | Rejected e =>
      x <- loadEnd (Some (on r)) VUndefined (castError e) (key r) ;; ret (Normal x)
  end.

(** The promise returned by [then] is fulfilled with what the continuation
    returns and rejected with what it throws. *)
Definition outcome (c : completion) : settlement :=
  match c with
  | Normal v => Fulfilled v
  | Throw e => Rejected e
  end.

Definition run_job (j : job) : M unit :=
  match j with
  | ClearScheduled => modify (with_scheduled false)
  | React r s =>
      c <- continuation r s ;;
      settle (Chained (on r) (derived r)) (outcome c)
  end.

(** ** The load pipeline *)

(** The default parameter [refetching = true]: only [undefined] is
    replaced. *)
Definition default_true (arg : val) : val :=
  if is_undefined arg then VBool true else arg.

Definition load (fetcher : ResourceFetcher) (arg : val) : M val :=
  let refetching := default_true arg in
  sch <- gets scheduled ;;
  if negb (strict_eq refetching (VBool false)) && sch then ret VUndefined
  else
    modify (with_scheduled false) ;;
    dyn <- gets dynamic ;;
    let lookup := match dyn with Some v => v | None => VBool true end in
    if loose_eq_null lookup || strict_eq lookup (VBool false) then
      cur <- gets currentPromise ;;
      d <- untrack (gets data) ;;
      loadEnd cur d VUndefined VUndefined ;;
      ret VUndefined
    else
      d <- gets data ;;
      let info := mkInfo d refetching in
      emit (FetcherCall lookup info) ;;
      let '(result, fetchError) :=
        match fetcher lookup info with
        | Normal v => (v, VUndefined)
        | Throw err => (VUndefined, err)
        end in
      if negb (is_undefined fetchError) then
        cur <- gets currentPromise ;;
        loadEnd cur VUndefined (castError fetchError) lookup ;;
        ret VUndefined
      else
        match as_promise result with
        | None =>
            cur <- gets currentPromise ;;
            loadEnd cur result VUndefined lookup ;;
            ret result
        | Some promise =>
            modify (with_currentPromise (Some promise)) ;;
            modify (with_scheduled true) ;;
            queueMicrotask ClearScheduled ;;
            batch (
              r <- gets resolved ;;
              setState (if r then refreshing else pending) ;;
              setError VUndefined ;;
              ret tt) ;;
            promise_then promise lookup
        end.

(** ** Actions *)

Definition mutate (v : val) : M val := setData v.

Definition refetch (fetcher : ResourceFetcher) (info : val) : M val :=
  load fetcher info.

(** ** Construction *)

(** [createResource(source?, fetcher, { initialValue })] with the default
    storage.  [source] is the value the source function evaluates to, if
    there is one; [heap] lists the caller's promises that have settled
    already.  With or without a source, [load(false)] runs once during
    construction (directly, or as the first run of the effect). *)
Definition createResource (source : option val) (fetcher : ResourceFetcher)
    (initialValue : val) (heap : list (nat * settlement)) : world :=
  let hasInitial := negb (is_undefined initialValue) in
  let w0 :=
    {| data := initialValue;
       error := VUndefined;
       state := if hasInitial then ready else unresolved;
       currentPromise := None;
       resolved := hasInitial;
       scheduled := false;
       dynamic := source;
       microtasks := [];
       reactions := [];
       settled := map (fun e => (Fetched (fst e), snd e)) heap;
       nextId := 0;
       log := [] |} in
  snd (load fetcher (VBool false) w0).

(** ** What can happen to a resource *)

Inductive action : Type :=
| Refetch (info : val) (fetcher : ResourceFetcher)
    (* actions.refetch(info) *)
| SourceChange (v : val) (fetcher : ResourceFetcher)
    (* the source now evaluates to v and the effect runs load(false) again;
       the code runs the effect again only when v differs from the value
       the memo held, here it is taken to run again in any case: what is
       proved of every step is proved of the code's steps, see [genuine] *)
| Mutate (v : val)
    (* actions.mutate(v) *)
| Settle (n : nat) (s : settlement)
    (* the caller's promise n is fulfilled or rejected *)
| Microtask.
    (* the run time runs the oldest microtask *)

Definition step (a : action) (w : world) : world :=
  match a with
  | Refetch info fetcher => snd (refetch fetcher info w)
  | SourceChange v fetcher =>
      match dynamic w with
      | Some _ => snd (load fetcher (VBool false) (with_dynamic (Some v) w))
      | None => w
      end
  | Mutate v => snd (mutate v w)
  | Settle n s => snd (settle (Fetched n) s w)
  | Microtask =>
      match microtasks w with
      | [] => w
      | j :: rest => snd (run_job j (with_microtasks rest w))
      end
  end.

Definition run (acts : list action) (w : world) : world :=
  fold_left (fun w a => step a w) acts w.

Inductive reachable : world -> Prop :=
| reach_create source fetcher initialValue heap :
    reachable (createResource source fetcher initialValue heap)
| reach_step a w :
    reachable w -> reachable (step a w).

(** ** The finalization, in the words of the specification *)

(** What an applied completion leaves behind: the in-flight handle is
    cleared, [resolved] is raised when the completion has a key, and one
    batch writes the data cell (on success only), the state cell and the
    error cell. *)
Definition finalized (v err key : val) (w : world) : world :=
  let success := is_undefined err in
  let res := resolved w || negb (is_undefined key) in
  let st := if success then (if res then ready else unresolved) else errored in
  {| data := if success then v else data w;
     error := err;
     state := st;
     currentPromise := None;
     resolved := res;
     scheduled := scheduled w;
     dynamic := dynamic w;
     microtasks := microtasks w;
     reactions := reactions w;
     settled := settled w;
     nextId := nextId w;
     log := EndBatch :: SetError err :: SetState st ::
            (if success then [SetData v] else []) ++ StartBatch :: log w |}.

(** What the start of an asynchronous load leaves behind. *)
Definition started (promise : handle) (lookupKey : val) (w : world) : world :=
  let st := if resolved w then refreshing else pending in
  let r := mkReaction promise lookupKey (nextId w) in
  {| data := data w;
     error := VUndefined;
     state := st;
     currentPromise := Some promise;
     resolved := resolved w;
     scheduled := true;
     dynamic := dynamic w;
     microtasks := (microtasks w ++ [ClearScheduled]) ++
                   match lookup promise (settled w) with
                   | Some s => [React r s]
                   | None => []
                   end;
     reactions := reactions w ++
                  match lookup promise (settled w) with
                  | Some _ => []
                  | None => [r]
                  end;
     settled := settled w;
     nextId := S (nextId w);
     log := EndBatch :: SetError VUndefined :: SetState st :: StartBatch :: log w |}.

(** The key of a load: the memo's value, or [true] without a source. *)
Definition source_key (w : world) : val :=
  match dynamic w with Some v => v | None => VBool true end.

(** [lookup == null || lookup === false] *)
Definition disabled (k : val) : bool :=
  loose_eq_null k || strict_eq k (VBool false).

(** [refetching !== false && scheduled] *)
Definition deduped (arg : val) (w : world) : bool :=
  negb (strict_eq (default_true arg) (VBool false)) && scheduled w.

Definition fetcher_calls (l : list event) : nat :=
  List.length (filter (fun e => match e with FetcherCall _ _ => true | _ => false end) l).

(** ** Vocabulary of the statements *)

(** The world in which the fetcher has just been called. *)
Definition called (k : val) (info : ResourceFetcherInfo) (w : world) : world :=
  with_log (FetcherCall k info :: log w) (with_scheduled false w).

(** The info record [{ value: data(), refetching }] of a [load(arg)]. *)
Definition info_of (arg : val) (w : world) : ResourceFetcherInfo :=
  mkInfo (data w) (default_true arg).

(** The five ways through [load]: what it returns and the world it leaves,
    way by way.  A fetcher that throws [undefined] goes the way of one that
    returns [undefined]. *)
Inductive load_path (f : ResourceFetcher) (arg : val) (w : world) : val * world -> Prop :=
| path_deduped :
    deduped arg w = true ->
    load_path f arg w (VUndefined, w)
| path_disabled :
    deduped arg w = false ->
    disabled (source_key w) = true ->
    load_path f arg w
      (VUndefined, finalized (data w) VUndefined VUndefined (with_scheduled false w))
| path_throw e :
    deduped arg w = false ->
    disabled (source_key w) = false ->
    f (source_key w) (info_of arg w) = Throw e ->
    is_undefined e = false ->
    load_path f arg w
      (VUndefined,
       finalized VUndefined (castError e) (source_key w)
                 (called (source_key w) (info_of arg w) w))
| path_sync v :
    deduped arg w = false ->
    disabled (source_key w) = false ->
    f (source_key w) (info_of arg w) = Normal v \/
    (f (source_key w) (info_of arg w) = Throw VUndefined /\ v = VUndefined) ->
    as_promise v = None ->
    load_path f arg w
      (v, finalized v VUndefined (source_key w)
                    (called (source_key w) (info_of arg w) w))
| path_async h :
    deduped arg w = false ->
    disabled (source_key w) = false ->
    f (source_key w) (info_of arg w) = Normal (VPromise h) ->
    load_path f arg w
      (VPromise (Chained h (nextId w)),
       started h (source_key w) (called (source_key w) (info_of arg w) w)).

(** What a continuation of [load] returns for a settlement. *)
Definition payload (s : settlement) : val :=
  match s with
  | Fulfilled v => v
  | Rejected _ => VUndefined
  end.

(** The world after the continuation of the reaction [r] has run. *)
Definition completion_of (r : reaction) (s : settlement) (w : world) : world :=
  match s with
  | Fulfilled v => snd (loadEnd (Some (on r)) v VUndefined (key r) w)
  | Rejected e => snd (loadEnd (Some (on r)) VUndefined (castError e) (key r) w)
  end.

(** The world in which the promise [h], pending so far, has settled. *)
Definition settled_with (h : handle) (s : settlement) (w : world) : world :=
  {| data := data w;
     error := error w;
     state := state w;
     currentPromise := currentPromise w;
     resolved := resolved w;
     scheduled := scheduled w;
     dynamic := dynamic w;
     microtasks := microtasks w ++
                   map (fun r => React r s) (filter (waits_on h) (reactions w));
     reactions := filter (fun r => negb (waits_on h r)) (reactions w);
     settled := (h, s) :: settled w;
     nextId := nextId w;
     log := log w |}.

(** What holds of every world a resource can be in: the error cell and the
    state cell agree; the error cell holds undefined or an error object; a
    set scheduled flag has its clearing microtask queued; a loading state
    has a fetch in flight; the state cell agrees with the resolved flag; a
    queued reaction belongs to a settled promise and a waiting one to a
    pending promise; a settled promise returned by [load] is fulfilled with
    what its continuation returned. *)
Record wf (w : world) : Prop := mk_wf {
  wf_error_state :
    is_undefined (error w) = false <-> state w = errored;
  wf_error_shape :
    is_undefined (error w) = true \/ instanceof_Error (error w) = true;
  wf_scheduled :
    scheduled w = true -> In ClearScheduled (microtasks w);
  wf_loading :
    loading w = true -> currentPromise w <> None;
  wf_resolved :
    match state w with
    | unresolved | pending => resolved w = false
    | ready | refreshing => resolved w = true
    | errored => True
    end;
  wf_jobs :
    forall r s, In (React r s) (microtasks w) ->
      lookup (on r) (settled w) = Some s /\ derived r < nextId w;
  wf_reactions :
    forall r, In r (reactions w) ->
      lookup (on r) (settled w) = None /\ derived r < nextId w;
  wf_chained :
    forall p n s, lookup (Chained p n) (settled w) = Some s ->
      n < nextId w /\
      exists sp, lookup p (settled w) = Some sp /\ s = Fulfilled (payload sp)
}.

(** What [completeLoad] is given as [err]: undefined, or an error object. *)
Definition error_like (err : val) : Prop :=
  is_undefined err = true \/ instanceof_Error err = true.

(** The error cell holds a value exactly when the state is [errored]. *)
Definition error_consistent (w : world) : Prop :=
  error w <> VUndefined <-> state w = errored.

(** A fetcher that hands out the caller's promise [n]. *)
Definition returns_promise (n : nat) : ResourceFetcher :=
  fun _ _ => Normal (VPromise (Fetched n)).

(** [mutate(v1); mutate(v2); ...] *)
Definition mutate_all (vs : list val) (w : world) : world :=
  fold_left (fun w v => snd (mutate v w)) vs w.

(** In the words of the specification: a value that is not an error object
    is wrapped into one "whose message is the string form of the value (or
    the literal Unknown error if the value cannot be stringified
    meaningfully, e.g. a plain record)" and whose cause is the value. *)
Definition stringifies (v : val) : bool :=
  match v with
  | VObject _ | VPromise _ => false
  | _ => true
  end.

Definition castError_spec (err : val) : val :=
  if instanceof_Error err then err
  else VError (if stringifies err then String_ err else "Unknown error") err.

(** [typeof err === 'string' ? err : 'Unknown error'] *)
Definition message_of (err : val) : string :=
  match err with
  | VStr s => s
  | _ => "Unknown error"
  end.


(** What else holds of every world a resource can be in: a tracked fetch
    shows as a loading state; an errored resource has resolved; the key of
    a reaction, waiting or queued, is the key of an enabled source. *)
Record tracked (w : world) : Prop := mk_tracked {
  tracked_inflight :
    currentPromise w <> None -> loading w = true;
  tracked_errored :
    state w = errored -> resolved w = true;
  tracked_jobs :
    forall r s, In (React r s) (microtasks w) -> disabled (key r) = false;
  tracked_reactions :
    forall r, In r (reactions w) -> disabled (key r) = false
}.

(** The key a resource is built with: the value of its source, or [true]
    when it has none. *)
Definition key_of (source : option val) : val :=
  match source with Some v => v | None => VBool true end.

(** The world in which [createResource] makes its first [load(false)]. *)
Definition fresh (source : option val) (initialValue : val)
    (heap : list (nat * settlement)) : world :=
  {| data := initialValue;
     error := VUndefined;
     state := if negb (is_undefined initialValue) then ready else unresolved;
     currentPromise := None;
     resolved := negb (is_undefined initialValue);
     scheduled := false;
     dynamic := source;
     microtasks := [];
     reactions := [];
     settled := map (fun e => (Fetched (fst e), snd e)) heap;
     nextId := 0;
     log := [] |}.

(** The moves of the state cell that one step can make. *)
Definition allowed (s s' : ResourceState) : bool :=
  match s, s' with
  | unresolved, (unresolved | pending | ready | errored) => true
  | pending, (pending | unresolved | ready | errored) => true
  | ready, (ready | refreshing | errored) => true
  | refreshing, (refreshing | ready | errored) => true
  | errored, (errored | refreshing | ready) => true
  | _, _ => false
  end.

(** The steps in which the resource is not called: a promise of the caller
    settles, or a microtask runs. *)
Definition passive (a : action) : bool :=
  match a with
  | Settle _ _ | Microtask => true
  | _ => false
  end.

(** The steps other than a change of the source. *)
Definition calls_only (a : action) : bool :=
  match a with
  | SourceChange _ _ => false
  | _ => true
  end.

(** The writes of one batch, as the engine makes them: a finalization
    (data on success only, then state, then error) or the start of an
    asynchronous load (state, then error). *)
Definition batch_with_data (s : ResourceState) (e : val) : bool :=
  is_undefined e &&
  match s with ready | unresolved => true | _ => false end.

Definition batch_without_data (s : ResourceState) (e : val) : bool :=
  if is_undefined e
  then match s with pending | refreshing => true | _ => false end
  else match s with errored => true | _ => false end.

(** A log (most recent first) in which the state cell and the error cell
    are written inside batches only, one batch never opens inside another,
    and every batch is one of the two above. *)
Fixpoint well_batched (l : list event) : bool :=
  match l with
  | [] => true
  | FetcherCall _ _ :: rest => well_batched rest
  | SetData _ :: rest => well_batched rest
  | EndBatch :: SetError e :: SetState s :: SetData _ :: StartBatch :: rest =>
      batch_with_data s e && well_batched rest
  | EndBatch :: SetError e :: SetState s :: StartBatch :: rest =>
      batch_without_data s e && well_batched rest
  | _ => false
  end.

(** ** [batch], [untrack] and [createSignal] over the reactive graph *)

(** The three wrappers of the module, with the callbacks they take allowed
    to throw.  The graph they run on is reduced to what the wrappers touch:
    the values of the signals, the current subscriber, the batch depth and
    the dependencies recorded so far. *)
Module Reactive.

Record graph : Type := mkGraph {
  cells : list val;                  (* the value of each signal, by number *)
  activeSub : option nat;            (* the current subscriber *)
  batchDepth : Z;
  links : list (nat * nat)           (* (subscriber, signal), most recent first *)
}.

Definition G (A : Type) : Type := graph -> A * graph.

Fixpoint update (id : nat) (v : val) (l : list val) : list val :=
  match l, id with
  | [], _ => []
  | _ :: rest, O => v :: rest
  | x :: rest, S n => x :: update n v rest
  end.

(** Modelled from the spec: the primitives of the reactive graph
    (alien-signals' [startBatch], [endBatch], [setCurrentSub] and
    [signal]), which the repository imports.  A batch is opened and closed
    by a counter; [setCurrentSub] installs a subscriber and returns the one
    it replaces; a signal called without an argument returns its value and
    records a dependency for the current subscriber, if there is one;
    called with an argument it stores it. *)
Definition startBatch : G unit :=
  fun g => (tt, mkGraph (cells g) (activeSub g) (batchDepth g + 1)%Z (links g)).

Definition endBatch : G unit :=
  fun g => (tt, mkGraph (cells g) (activeSub g) (batchDepth g - 1)%Z (links g)).

Definition setCurrentSub (sub : option nat) : G (option nat) :=
  fun g => (activeSub g, mkGraph (cells g) sub (batchDepth g) (links g)).

Definition signal (value : val) : G nat :=
  fun g => (List.length (cells g),
            mkGraph (cells g ++ [value]) (activeSub g) (batchDepth g) (links g)).

Definition signal_read (id : nat) : G val :=
  fun g => (nth id (cells g) VUndefined,
            mkGraph (cells g) (activeSub g) (batchDepth g)
                    (match activeSub g with
                     | Some sub => (sub, id) :: links g
                     | None => links g
                     end)).

Definition signal_write (id : nat) (v : val) : G unit :=
  fun g => (tt, mkGraph (update id v (cells g)) (activeSub g) (batchDepth g) (links g)).

(** [batch(fnToBatch)]: [startBatch(); try { fnToBatch(); } finally
    { endBatch(); }]; what [fnToBatch] returns is dropped, what it throws
    is thrown on. *)
Definition batch (fnToBatch : G completion) : G completion :=
  fun g =>
    let (_, g1) := startBatch g in
    let (c, g2) := fnToBatch g1 in
    let (_, g3) := endBatch g2 in
    (match c with Normal _ => Normal VUndefined | Throw e => Throw e end, g3).

(** [untrack(fn)]: [const prevSub = setCurrentSub(undefined); try { return
    fn(); } finally { setCurrentSub(prevSub); }] *)
Definition untrack (fn : G completion) : G completion :=
  fun g =>
    let (prevSub, g1) := setCurrentSub None g in
    let (c, g2) := fn g1 in
    let (_, g3) := setCurrentSub prevSub g2 in
    (c, g3).

(** [createSignal(value)]: the signal made, known by its number; [getter]
    and [setter] are the two functions returned for it. *)
Definition createSignal (value : val) : G nat := signal value.

Definition getter (internalSignal : nat) : G completion :=
  fun g => let (v, g1) := signal_read internalSignal g in (Normal v, g1).

Definition setter (internalSignal : nat) (value : val) : G completion :=
  fun g =>
    let (_, g1) := signal_write internalSignal value g in
    untrack (getter internalSignal) g1.

(** The callbacks a caller can hand to [batch] and [untrack]: reads and
    writes of signals, throws, sequences, and the wrappers again. *)
Inductive code : Type :=
| Get (id : nat)
| Put (id : nat) (v : val)
| Raise (e : val)
| Seq (first second : code)
| Batch (body : code)
| Untrack (body : code).

Fixpoint exec (c : code) : G completion :=
  match c with
  | Get id => getter id
  | Put id v => setter id v
  | Raise e => fun g => (Throw e, g)
  | Seq first second =>
      fun g =>
        match exec first g with
        | (Normal _, g1) => exec second g1
        | (Throw e, g1) => (Throw e, g1)
        end
  | Batch body => batch (exec body)
  | Untrack body => untrack (exec body)
  end.

(** Whether a call ended by throwing. *)
Definition throws (c : completion) : bool :=
  match c with Throw _ => true | Normal _ => false end.

End Reactive.

(** The steps the code can take: a source change is one only when the
    value differs (by [!==]) from the one the memo holds, and a microtask
    runs only when one is queued. *)
Definition genuine (a : action) (w : world) : bool :=
  match a with
  | SourceChange v _ =>
      match dynamic w with
      | Some k => negb (strict_eq k v)
      | None => false
      end
  | Microtask =>
      match microtasks w with [] => false | _ :: _ => true end
  | _ => true
  end.

(** The fetcher is fixed when the resource is built: a step of the
    resource built on [f] calls no other fetcher. *)
Definition uses (a : action) (f : ResourceFetcher) : Prop :=
  match a with
  | Refetch _ g | SourceChange _ g => g = f
  | _ => True
  end.

(** A fetcher that answers by the key it is given: a promise for "later",
    a throw for "fail", a value for any other key. *)
Definition keyed : ResourceFetcher :=
  fun k _ =>
    match k with
    | VStr "later" => Normal (VPromise (Fetched 1))
    | VStr "fail" => Throw VNull
    | _ => Normal VNull
    end.

(** What a [load] leaves in the data cell. *)
Definition data_after_load (f : ResourceFetcher) (arg : val) (w : world) : val :=
  if deduped arg w || disabled (source_key w) then data w
  else
    match f (source_key w) (info_of arg w) with
    | Normal v => if isPromise v then data w else v
    | Throw e => if is_undefined e then VUndefined else data w
    end.

(** What one step leaves in the data cell. *)
Definition data_after (a : action) (w : world) : val :=
  match a with
  | Refetch info f => data_after_load f info w
  | SourceChange v f =>
      match dynamic w with
      | Some _ => data_after_load f (VBool false) (with_dynamic (Some v) w)
      | None => data w
      end
  | Mutate v => v
  | Settle _ _ => data w
  | Microtask =>
      match microtasks w with
      | React r (Fulfilled v) :: _ =>
          if same_promise (currentPromise w) (Some (on r)) then v else data w
      | _ => data w
      end
  end.

(** ** The continuations, with subscribers *)

(** [endBatch] is alien-signals': when the outermost batch closes it runs
    the subscribers that the writes of the batch have queued, and what one
    of them throws comes out of [endBatch], hence out of [batch],
    [completeLoad], [loadEnd] and the continuation.  [flush w] is how that
    run ends in the world [w] the batch leaves; everywhere else in this
    file no subscriber throws. *)
Section Flushed.

Variable flush : world -> completion.

Definition batch_flushed (fnToBatch : M unit) : M completion :=
  emit StartBatch ;; fnToBatch ;; emit EndBatch ;;
  c <- gets flush ;;
  ret (match c with Throw e => Throw e | Normal _ => Normal VUndefined end).

Definition completeLoad_flushed (v err : val) : M completion :=
  batch_flushed (
    when (is_undefined err) (setData v ;; ret tt) ;;
    r <- gets resolved ;;
    setState (if negb (is_undefined err) then errored
              else if r then ready else unresolved) ;;
    setError err ;;
    ret tt).

Definition loadEnd_flushed (p : option handle) (v err key : val) : M completion :=
  cur <- gets currentPromise ;;
  if same_promise cur p then
    modify (with_currentPromise None) ;;
    when (negb (is_undefined key)) (modify (with_resolved true)) ;;
    c <- completeLoad_flushed v err ;;
    ret (match c with Throw e => Throw e | Normal _ => Normal v end)
  else ret (Normal v).

Definition continuation_flushed (r : reaction) (s : settlement) : M completion :=
  match s with
  | Fulfilled v => loadEnd_flushed (Some (on r)) v VUndefined (key r)
  | Rejected e => loadEnd_flushed (Some (on r)) VUndefined (castError e) (key r)
  end.

End Flushed.

(** The subscriber [createEffect(() => resource())]: it calls the resource,
    and throws what the resource throws. *)
Definition calls_the_resource (w : world) : completion := read w.

(** * Properties *)

Lemma world_eta (w : world) :
  mkWorld (data w) (error w) (state w) (currentPromise w) (resolved w)
          (scheduled w) (dynamic w) (microtasks w) (reactions w) (settled w)
          (nextId w) (log w) = w.
Proof. destruct w; reflexivity. Qed.

Lemma same_promise_true (a b : option handle) :
  same_promise a b = true <-> a = b.
Proof.
  destruct a as [x|], b as [y|]; simpl; try (split; congruence).
  destruct (handle_eq_dec x y); split; congruence.
Qed.

Lemma same_promise_refl (a : option handle) : same_promise a a = true.
Proof. apply same_promise_true; reflexivity. Qed.

(** ** [loadEnd] *)

Lemma loadEnd_eq (p : option handle) (v err key : val) (w : world) :
  loadEnd p v err key w =
  (v, if same_promise (currentPromise w) p then finalized v err key w else w).
Proof.
  unfold loadEnd, bind, gets; simpl.
  destruct (same_promise (currentPromise w) p); [|reflexivity].
  unfold finalized, completeLoad, batch, when, bind, gets, modify, emit, ret.
  destruct w; destruct (is_undefined err), (is_undefined key); simpl;
    rewrite ?orb_true_r, ?orb_false_r; reflexivity.
Qed.

Lemma finalized_neq (v err key : val) (w : world) : finalized v err key w <> w.
Proof.
  intro H. apply (f_equal log) in H. simpl in H.
  apply (f_equal (@List.length event)) in H. simpl in H.
  rewrite length_app in H. simpl in H. lia.
Qed.

(** ** The five ways through [load] *)

Section LoadPaths.

Variables (f : ResourceFetcher) (arg : val) (w : world).

Lemma load_deduped :
  deduped arg w = true -> load f arg w = (VUndefined, w).
Proof.
  unfold deduped, load, bind, gets; simpl. intros ->. reflexivity.
Qed.

Lemma load_disabled :
  deduped arg w = false ->
  disabled (source_key w) = true ->
  load f arg w =
  (VUndefined, finalized (data w) VUndefined VUndefined (with_scheduled false w)).
Proof.
  unfold deduped, disabled, source_key, load, untrack, bind, gets, modify; simpl.
  intros -> Hk. rewrite Hk, loadEnd_eq; simpl.
  rewrite same_promise_refl. reflexivity.
Qed.

Lemma load_throw (e : val) :
  deduped arg w = false ->
  disabled (source_key w) = false ->
  f (source_key w) (info_of arg w) = Throw e ->
  is_undefined e = false ->
  load f arg w =
  (VUndefined,
   finalized VUndefined (castError e) (source_key w)
             (called (source_key w) (info_of arg w) w)).
Proof.
  unfold deduped, disabled, source_key, info_of, load, bind, gets, modify, emit; simpl.
  intros -> Hk Hf He; simpl. rewrite Hk; simpl. rewrite Hf; simpl.
  rewrite He; simpl.
  rewrite loadEnd_eq; simpl. rewrite same_promise_refl. reflexivity.
Qed.

Lemma load_sync (v : val) :
  deduped arg w = false ->
  disabled (source_key w) = false ->
  f (source_key w) (info_of arg w) = Normal v ->
  as_promise v = None ->
  load f arg w =
  (v, finalized v VUndefined (source_key w)
                (called (source_key w) (info_of arg w) w)).
Proof.
  unfold deduped, disabled, source_key, info_of, load, bind, gets, modify, emit; simpl.
  intros -> Hk Hf Hv; simpl. rewrite Hk; simpl. rewrite Hf; simpl.
  rewrite Hv; simpl.
  rewrite loadEnd_eq; simpl. rewrite same_promise_refl. reflexivity.
Qed.

(** A fetcher that throws [undefined] is not seen to have thrown:
    [fetchError] is [undefined] after the [catch] as it was before. *)
Lemma load_throw_undefined :
  deduped arg w = false ->
  disabled (source_key w) = false ->
  f (source_key w) (info_of arg w) = Throw VUndefined ->
  load f arg w =
  (VUndefined,
   finalized VUndefined VUndefined (source_key w)
             (called (source_key w) (info_of arg w) w)).
Proof.
  unfold deduped, disabled, source_key, info_of, load, bind, gets, modify, emit; simpl.
  intros -> Hk Hf; simpl. rewrite Hk; simpl. rewrite Hf; simpl.
  rewrite loadEnd_eq; simpl. rewrite same_promise_refl. reflexivity.
Qed.

Lemma load_async (h : handle) :
  deduped arg w = false ->
  disabled (source_key w) = false ->
  f (source_key w) (info_of arg w) = Normal (VPromise h) ->
  load f arg w =
  (VPromise (Chained h (nextId w)),
   started h (source_key w) (called (source_key w) (info_of arg w) w)).
Proof.
  unfold deduped, disabled, source_key, info_of, load, bind, gets, modify, emit; simpl.
  intros -> Hk Hf; simpl. rewrite Hk; simpl. rewrite Hf; simpl.
  unfold promise_then, batch, setState, setError, queueMicrotask, untrack,
    bind, gets, modify, emit, ret, started, called; simpl.
  destruct (lookup h (settled w)); simpl; rewrite ?app_nil_r; reflexivity.
Qed.

Lemma load_paths :
  load_path f arg w (load f arg w).
Proof.
  destruct (deduped arg w) eqn:Hd.
  { rewrite load_deduped by assumption. now constructor. }
  destruct (disabled (source_key w)) eqn:Hk.
  { rewrite load_disabled by assumption. now constructor. }
  destruct (f (source_key w) (info_of arg w)) as [v|e] eqn:Hf.
  - destruct (as_promise v) as [h|] eqn:Hv.
    + destruct v; try discriminate. injection Hv as ->.
      rewrite (load_async h) by assumption. now constructor.
    + rewrite (load_sync v) by assumption. constructor; auto.
  - destruct (is_undefined e) eqn:He.
    + destruct e; try discriminate.
      rewrite load_throw_undefined by assumption.
      apply path_sync; auto.
    + rewrite (load_throw e) by assumption. now constructor.
Qed.

End LoadPaths.

(** ** The run time *)

Lemma continuation_eq (r : reaction) (s : settlement) (w : world) :
  continuation r s w = (Normal (payload s), completion_of r s w).
Proof.
  destruct s; unfold continuation, completion_of, bind, ret;
    rewrite loadEnd_eq; reflexivity.
Qed.

Lemma completion_of_eq (r : reaction) (s : settlement) (w : world) :
  completion_of r s w =
  if same_promise (currentPromise w) (Some (on r)) then
    match s with
    | Fulfilled v => finalized v VUndefined (key r) w
    | Rejected e => finalized VUndefined (castError e) (key r) w
    end
  else w.
Proof.
  destruct s; unfold completion_of; rewrite loadEnd_eq; simpl;
    destruct (same_promise (currentPromise w) (Some (on r))); reflexivity.
Qed.

Lemma settle_eq (h : handle) (s : settlement) (w : world) :
  settle h s w =
  (tt, match lookup h (settled w) with
       | Some _ => w
       | None => settled_with h s w
       end).
Proof.
  unfold settle, bind, gets; simpl.
  destruct (lookup h (settled w)); reflexivity.
Qed.

Lemma run_job_React (r : reaction) (s : settlement) (w : world) :
  run_job (React r s) w =
  settle (Chained (on r) (derived r)) (Fulfilled (payload s)) (completion_of r s w).
Proof.
  unfold run_job, bind. rewrite continuation_eq. reflexivity.
Qed.

Lemma lookup_head (h : handle) (s : settlement) (tbl : list (handle * settlement)) :
  lookup h ((h, s) :: tbl) = Some s.
Proof. simpl. destruct (handle_eq_dec h h); congruence. Qed.

Lemma lookup_other (h h' : handle) (s : settlement) (tbl : list (handle * settlement)) :
  h <> h' -> lookup h ((h', s) :: tbl) = lookup h tbl.
Proof. intro. simpl. destruct (handle_eq_dec h h'); congruence. Qed.

Lemma lookup_heap (p : handle) (n : nat) (heap : list (nat * settlement)) :
  lookup (Chained p n) (map (fun e => (Fetched (fst e), snd e)) heap) = None.
Proof.
  induction heap as [|[m s] heap IH]; simpl; [reflexivity|].
  destruct (handle_eq_dec (Chained p n) (Fetched m)); [discriminate|assumption].
Qed.

Lemma Chained_neq (p : handle) (n : nat) : p <> Chained p n.
Proof.
  induction p as [m|q IH m]; [discriminate|].
  intro H. injection H as H1 H2. subst m. exact (IH H1).
Qed.

(** ** Well-formed worlds *)

Lemma castError_is_error (e : val) : instanceof_Error (castError e) = true.
Proof. destruct e; reflexivity. Qed.

Lemma castError_defined (e : val) : is_undefined (castError e) = false.
Proof. destruct e; reflexivity. Qed.

Lemma error_is_defined (e : val) : instanceof_Error e = true -> is_undefined e = false.
Proof. destruct e; simpl; congruence. Qed.

Lemma wf_finalized (v err key : val) (w : world) :
  error_like err -> wf w -> wf (finalized v err key w).
Proof.
  intros Herr [H1 H2 H3 H4 H5 H6 H7 H8].
  constructor; simpl; try assumption.
  - destruct (is_undefined err); simpl.
    + destruct (resolved w || negb (is_undefined key)); split; discriminate.
    + split; reflexivity.
  - unfold loading; simpl. destruct (is_undefined err); [|discriminate].
    destruct (resolved w || negb (is_undefined key)); discriminate.
  - destruct (is_undefined err); [|exact I].
    destruct (resolved w || negb (is_undefined key)) eqn:E; reflexivity.
Qed.

Lemma wf_unscheduled (l : list event) (w : world) :
  wf w -> wf (with_log l (with_scheduled false w)).
Proof.
  intros [H1 H2 H3 H4 H5 H6 H7 H8].
  constructor; simpl; try assumption. discriminate.
Qed.

Lemma wf_started (h : handle) (k : val) (w : world) :
  wf w -> wf (started h k w).
Proof.
  intros [H1 H2 H3 H4 H5 H6 H7 H8].
  constructor; simpl.
  - destruct (resolved w); split; discriminate.
  - left; reflexivity.
  - intros _. apply in_or_app. left. apply in_or_app. right. left. reflexivity.
  - discriminate.
  - destruct (resolved w) eqn:E; reflexivity.
  - intros r s Hin. apply in_app_or in Hin. destruct Hin as [Hin|Hin].
    + apply in_app_or in Hin. destruct Hin as [Hin|[Hin|[]]]; [|discriminate].
      destruct (H6 r s Hin). split; [assumption|lia].
    + destruct (lookup h (settled w)) eqn:E; [|destruct Hin].
      destruct Hin as [Hin|[]]. injection Hin as <- <-. simpl.
      split; [assumption|lia].
  - intros r Hin. apply in_app_or in Hin. destruct Hin as [Hin|Hin].
    + destruct (H7 r Hin). split; [assumption|lia].
    + destruct (lookup h (settled w)) eqn:E; [destruct Hin|].
      destruct Hin as [<-|[]]. simpl. split; [assumption|lia].
  - intros p n s Hl. destruct (H8 p n s Hl). split; [lia|assumption].
Qed.

Lemma wf_mutate (v : val) (w : world) : wf w -> wf (snd (mutate v w)).
Proof.
  intros [H1 H2 H3 H4 H5 H6 H7 H8]. constructor; simpl; assumption.
Qed.

Lemma wf_settled_with (h : handle) (s : settlement) (w : world) :
  lookup h (settled w) = None ->
  (forall p n, h = Chained p n ->
     n < nextId w /\ exists sp, lookup p (settled w) = Some sp /\ s = Fulfilled (payload sp)) ->
  wf w -> wf (settled_with h s w).
Proof.
  intros Hnone Hch [H1 H2 H3 H4 H5 H6 H7 H8].
  assert (Hkeep : forall q x, lookup q (settled w) = Some x ->
                    lookup q ((h, s) :: settled w) = Some x).
  { intros q x Hq. rewrite lookup_other; [assumption|]. congruence. }
  constructor; simpl; try assumption.
  - intros Hs. apply in_or_app. left. auto.
  - intros r x Hin. apply in_app_or in Hin. destruct Hin as [Hin|Hin].
    + destruct (H6 r x Hin) as [Ha Hb]. split; [|assumption].
      destruct (handle_eq_dec (on r) h); congruence.
    + apply in_map_iff in Hin. destruct Hin as [r' [Heq Hin]].
      injection Heq as -> ->. apply filter_In in Hin. destruct Hin as [Hin Hw].
      unfold waits_on in Hw. destruct (handle_eq_dec (on r) h) as [e|]; [|discriminate].
      destruct (H7 r Hin). split; [|assumption].
      destruct (handle_eq_dec (on r) h); congruence.
  - intros r Hin. apply filter_In in Hin. destruct Hin as [Hin Hw].
    unfold waits_on in Hw.
    destruct (H7 r Hin). split; [|assumption].
    destruct (handle_eq_dec (on r) h); [discriminate|assumption].
  - intros p n x. destruct (handle_eq_dec (Chained p n) h) as [e|ne].
    + intros Hx. injection Hx as <-. destruct (Hch p n (eq_sym e)) as [Hn [sp [Hsp Hs]]].
      split; [assumption|]. exists sp. split; [|assumption].
      destruct (handle_eq_dec p h); [congruence|assumption].
    + intros Hx. destruct (H8 p n x Hx) as [Hn [sp [Hsp Hs]]].
      split; [assumption|]. exists sp. split; [|assumption].
      destruct (handle_eq_dec p h); [congruence|assumption].
Qed.

Lemma wf_load (f : ResourceFetcher) (arg : val) (w : world) :
  wf w -> wf (snd (load f arg w)).
Proof.
  intros Hw. destruct (load_paths f arg w); simpl.
  - assumption.
  - apply wf_finalized; [left; reflexivity|].
    rewrite <- (world_eta (with_scheduled false w)).
    apply (wf_unscheduled (log w) w Hw).
  - apply wf_finalized; [right; apply castError_is_error|].
    apply wf_unscheduled, Hw.
  - apply wf_finalized; [left; reflexivity|].
    apply wf_unscheduled, Hw.
  - apply wf_started. apply wf_unscheduled, Hw.
Qed.

Lemma wf_completion_of (r : reaction) (s : settlement) (w : world) :
  wf w -> wf (completion_of r s w).
Proof.
  intros Hw. rewrite completion_of_eq.
  destruct (same_promise (currentPromise w) (Some (on r))); [|assumption].
  destruct s; apply wf_finalized; auto.
  - left; reflexivity.
  - right; apply castError_is_error.
Qed.

Lemma completion_of_frame (r : reaction) (s : settlement) (w : world) :
  microtasks (completion_of r s w) = microtasks w /\
  reactions (completion_of r s w) = reactions w /\
  settled (completion_of r s w) = settled w /\
  nextId (completion_of r s w) = nextId w /\
  scheduled (completion_of r s w) = scheduled w.
Proof.
  rewrite completion_of_eq.
  destruct (same_promise (currentPromise w) (Some (on r))); [|tauto].
  destruct s; simpl; tauto.
Qed.

Lemma wf_settle_external (n : nat) (s : settlement) (w : world) :
  wf w -> wf (snd (settle (Fetched n) s w)).
Proof.
  intros Hw. rewrite settle_eq; simpl.
  destruct (lookup (Fetched n) (settled w)) eqn:E; [assumption|].
  apply wf_settled_with; [assumption| |assumption].
  intros p m H; discriminate.
Qed.

Lemma wf_pop_React (r : reaction) (s : settlement) (rest : list job) (w : world) :
  microtasks w = React r s :: rest -> wf w -> wf (with_microtasks rest w).
Proof.
  intros Hq [H1 H2 H3 H4 H5 H6 H7 H8].
  constructor; simpl; try assumption.
  - intros Hs. specialize (H3 Hs). rewrite Hq in H3.
    destruct H3 as [H3|H3]; [discriminate|assumption].
  - intros r' s' Hin. apply H6. rewrite Hq. right; assumption.
Qed.

Lemma wf_run_job (j : job) (rest : list job) (w : world) :
  microtasks w = j :: rest -> wf w -> wf (snd (run_job j (with_microtasks rest w))).
Proof.
  intros Hq Hw. destruct j as [|r s].
  - destruct Hw as [H1 H2 H3 H4 H5 H6 H7 H8].
    constructor; simpl; try assumption.
    + discriminate.
    + intros r s Hin. apply H6. rewrite Hq. right; assumption.
  - assert (Hs : lookup (on r) (settled w) = Some s /\ derived r < nextId w).
    { apply (wf_jobs w Hw). rewrite Hq. left; reflexivity. }
    pose proof (wf_pop_React r s rest w Hq Hw) as Hw'.
    pose proof (wf_completion_of r s _ Hw') as Hw''.
    destruct (completion_of_frame r s (with_microtasks rest w))
      as (Hm & Hr & Hst & Hn & Hsch).
    rewrite run_job_React, settle_eq; simpl.
    destruct (lookup (Chained (on r) (derived r))
                (settled (completion_of r s (with_microtasks rest w)))) eqn:E;
      [assumption|].
    apply wf_settled_with; [assumption| |assumption].
    intros p n Heq. injection Heq as <- <-.
    rewrite Hn, Hst; simpl. split; [tauto|].
    exists s. split; [tauto|reflexivity].
Qed.

Lemma wf_step (a : action) (w : world) : wf w -> wf (step a w).
Proof.
  intros Hw. destruct a as [info f|v f|v|n s|]; simpl.
  - apply wf_load, Hw.
  - destruct (dynamic w) eqn:E; [|assumption].
    apply wf_load. destruct Hw as [H1 H2 H3 H4 H5 H6 H7 H8].
    constructor; assumption.
  - apply wf_mutate, Hw.
  - apply wf_settle_external, Hw.
  - destruct (microtasks w) as [|j rest] eqn:E; [assumption|].
    apply wf_run_job; assumption.
Qed.

Lemma wf_createResource (source : option val) (f : ResourceFetcher)
    (initialValue : val) (heap : list (nat * settlement)) :
  wf (createResource source f initialValue heap).
Proof.
  unfold createResource. apply wf_load.
  constructor; simpl.
  - destruct (is_undefined initialValue); split; discriminate.
  - left; reflexivity.
  - discriminate.
  - unfold loading; simpl. destruct (is_undefined initialValue); discriminate.
  - destruct (is_undefined initialValue); reflexivity.
  - intros r s [].
  - intros r [].
  - intros p n s H. rewrite lookup_heap in H. discriminate.
Qed.

Lemma reachable_wf (w : world) : reachable w -> wf w.
Proof.
  induction 1 as [source f iv heap|a w _ IH].
  - apply wf_createResource.
  - apply wf_step, IH.
Qed.


Lemma reachable_run (acts : list action) (w : world) :
  reachable w -> reachable (run acts w).
Proof.
  revert w. induction acts as [|a acts IH]; intros w Hw; simpl.
  - assumption.
  - apply IH. constructor. assumption.
Qed.

(** ** The scenarios of the test suite *)

(** "should resolve synchronously" *)
Example resolves_synchronously :
  let w := createResource None (fun _ _ => Normal (VBool true)) VUndefined [] in
  read w = Normal (VBool true) /\ loading w = false /\
  state w = ready /\ error w = VUndefined.
Proof. vm_compute. repeat split. Qed.

(** "should create resource with initial value" *)
Example initial_value_then_fetch :
  let w := createResource None (fun _ _ => Normal (VStr "async-data"))
                          (VStr "initial") [] in
  read w = Normal (VStr "async-data") /\ state w = ready.
Proof. vm_compute. repeat split. Qed.

(** "should prevent duplicate refetch while scheduled": the construction
    starts the first fetch; two refetches in the same turn are suppressed;
    after the first fetch has resolved and the microtasks have run, a
    refetch calls the fetcher a second time. *)
Example duplicate_refetch_scenario :
  let w0 := createResource None (returns_promise 1) VUndefined [] in
  let w1 := snd (refetch (returns_promise 2) VUndefined w0) in
  let w2 := snd (refetch (returns_promise 2) VUndefined w1) in
  let w3 := run [Settle 1 (Fulfilled (VStr "first")); Microtask; Microtask] w2 in
  let w4 := snd (refetch (returns_promise 2) VUndefined w3) in
  let w5 := run [Settle 2 (Fulfilled (VStr "second")); Microtask; Microtask] w4 in
  state w0 = pending /\ fetcher_calls (log w0) = 1 /\
  fst (refetch (returns_promise 2) VUndefined w0) = VUndefined /\
  fst (refetch (returns_promise 2) VUndefined w1) = VUndefined /\
  fetcher_calls (log w2) = 1 /\
  fst (refetch (returns_promise 2) VUndefined w3) = VPromise (Chained (Fetched 2) 1) /\
  fetcher_calls (log w4) = 2 /\
  read w5 = Normal (VStr "second").
Proof. vm_compute. repeat split. Qed.

(** "should clear pending promise when source becomes falsy" *)
Example source_switched_off :
  let w0 := createResource (Some (VBool true)) (returns_promise 1) VUndefined [] in
  let w1 := run [SourceChange (VBool false) (returns_promise 1); Microtask] w0 in
  let w2 := run [Settle 1 (Fulfilled (VStr "should-not-matter")); Microtask] w1 in
  state w0 = pending /\ loading w0 = true /\
  state w1 = unresolved /\ loading w1 = false /\
  state w2 = unresolved /\ data w2 = VUndefined.
Proof. vm_compute. repeat split. Qed.

(** "should handle non-Error rejected promises": the fetcher returns a
    promise that is rejected already. *)
Example rejected_with_a_record :
  let w := run [Microtask; Microtask]
               (createResource None (returns_promise 1) VUndefined [(1, Rejected (VObject 9))]) in
  state w = errored /\ error w = VError "Unknown error" (VObject 9) /\
  read w = Throw (VError "Unknown error" (VObject 9)).
Proof. vm_compute. repeat split. Qed.

(** "should access latest property during refresh without throwing" *)
Example latest_during_refresh :
  let w0 := run [Settle 1 (Fulfilled (VStr "initial")); Microtask; Microtask]
                (createResource None (returns_promise 1) VUndefined []) in
  let w1 := snd (refetch (returns_promise 2) VUndefined w0) in
  let w2 := run [Settle 2 (Rejected (VError "refresh failed" VUndefined));
                 Microtask; Microtask] w1 in
  latest w0 = Normal (VStr "initial") /\
  state w1 = refreshing /\ latest w1 = Normal (VStr "initial") /\
  read w2 = Throw (VError "refresh failed" VUndefined) /\
  latest w2 = Throw (VError "refresh failed" VUndefined).
Proof. vm_compute. repeat split. Qed.

(** "should throw on latest property when resolved resource has sync error" *)
Example latest_after_sync_error :
  let w0 := createResource None (fun _ _ => Normal (VStr "success"))
                           (VStr "default") [] in
  let w1 := snd (refetch (fun _ _ => Throw (VError "sync error" VUndefined))
                         VUndefined w0) in
  latest w0 = Normal (VStr "success") /\
  read w1 = Throw (VError "sync error" VUndefined) /\
  latest w1 = Throw (VError "sync error" VUndefined).
Proof. vm_compute. repeat split. Qed.

Lemma is_undefined_false (v : val) : is_undefined v = false <-> v <> VUndefined.
Proof. destruct v; simpl; split; congruence. Qed.

Lemma is_undefined_true (v : val) : is_undefined v = true <-> v = VUndefined.
Proof. destruct v; simpl; split; congruence. Qed.

(** * Finalization and the stale-completion guard *)

(** The finalization as such.  Every completion of the load pipeline ends
    in [loadEnd].  It returns its value in any case, and it touches the resource exactly when
    the handle it was given is the tracked in-flight handle: then the world
    becomes [finalized v err key w] (handle cleared; one batch that writes
    the data cell on success only, then the state cell, then the error
    cell; state [errored] if there is an error, else [ready] if resolved,
    else [unresolved]); otherwise the world is unchanged.  The synchronous
    completions (falsy source, value, throw) pass the tracked handle itself
    and so always apply ([load_path]); the asynchronous ones pass the
    promise they were attached to ([completion_of]). *)
Theorem loadEnd_applies_iff_current :
  (forall p v err key w,
     loadEnd p v err key w =
     (v, if same_promise (currentPromise w) p then finalized v err key w else w)) /\
  (forall p w, same_promise (currentPromise w) p = true <-> currentPromise w = p) /\
  (forall p v err key w,
     snd (loadEnd p v err key w) = w <-> currentPromise w <> p) /\
  (forall f arg w, load_path f arg w (load f arg w)) /\
  (forall r s w,
     continuation r s w = (Normal (payload s), completion_of r s w) /\
     completion_of r s w =
     if same_promise (currentPromise w) (Some (on r)) then
       match s with
       | Fulfilled v => finalized v VUndefined (key r) w
       | Rejected e => finalized VUndefined (castError e) (key r) w
       end
     else w).
Proof.
  split; [exact loadEnd_eq|].
  split; [intros; apply same_promise_true|].
  split; [|split; [exact load_paths|]].
  - intros p v err key w. rewrite loadEnd_eq; simpl.
    destruct (same_promise (currentPromise w) p) eqn:E.
    + apply same_promise_true in E. split.
      * intro H. exfalso. exact (finalized_neq _ _ _ _ H).
      * intro H. contradiction.
    + split; [|reflexivity]. intros _ H.
      apply same_promise_true in H. congruence.
  - intros r s w. split; [apply continuation_eq|apply completion_of_eq].
Qed.

(** * Reading *)

(** C5.  Calling the resource throws, and then throws the error cell's
    value, exactly when the state cell is [errored] and the error cell is
    not undefined; in every other case it returns the data cell's value. *)
Theorem read_throws_iff_errored (w : world) :
  ((exists e, read w = Throw e) <-> state w = errored /\ error w <> VUndefined) /\
  (state w = errored /\ error w <> VUndefined -> read w = Throw (error w)) /\
  (state w <> errored \/ error w = VUndefined -> read w = Normal (data w)).
Proof.
  unfold read.
  destruct (ResourceState_eq_dec (state w) errored) as [Hs|Hs];
    destruct (is_undefined (error w)) eqn:He; simpl;
    [apply is_undefined_true in He | apply is_undefined_false in He
    |apply is_undefined_true in He | apply is_undefined_false in He];
    (split; [split|split]);
    try (intros [e H]; discriminate);
    try (intros [H1 H2]; contradiction);
    try (intros [H|H]; contradiction);
    try (intros; reflexivity).
  - intros _. split; assumption.
  - intros _. exists (error w). reflexivity.
Qed.

Lemma read_throws_iff_errored_witness :
  let w := createResource None (fun _ _ => Throw (VStr "sync error")) VUndefined [] in
  read w = Throw (error w) /\
  read (with_state ready w) = Normal (data (with_state ready w)).
Proof.
  split.
  - apply (proj1 (proj2 (read_throws_iff_errored _))).
    split; [reflexivity|discriminate].
  - apply (proj2 (proj2 (read_throws_iff_errored _))).
    left; discriminate.
Defined.

Lemma truthy_error_cell (w : world) :
  wf w -> truthy (error w) = negb (is_undefined (error w)).
Proof.
  intros Hw. destruct (wf_error_shape w Hw) as [H|H];
    destruct (error w); simpl in *; congruence.
Qed.



(** * The error cell and the state cell agree *)

Lemma wf_error_consistent (w : world) : wf w -> error_consistent w.
Proof.
  intros Hw. unfold error_consistent.
  rewrite <- is_undefined_false. apply (wf_error_state w Hw).
Qed.

(** C10.  In every reachable world the error cell is not undefined exactly
    when the state cell is [errored].  Construction establishes it; every
    finalization and every start of an asynchronous load re-establish it
    whatever the world before; [mutate] keeps it. *)
Theorem error_iff_errored :
  (forall w, reachable w -> error_consistent w) /\
  (forall source f initialValue heap,
     error_consistent (createResource source f initialValue heap)) /\
  (forall v err key w, error_consistent (finalized v err key w)) /\
  (forall h k w, error_consistent (started h k w)) /\
  (forall v w, error_consistent w -> error_consistent (snd (mutate v w))).
Proof.
  split; [|split; [|split; [|split]]].
  - intros w Hr. apply wf_error_consistent, reachable_wf, Hr.
  - intros. apply wf_error_consistent, wf_createResource.
  - intros v err key w. unfold error_consistent; simpl.
    rewrite <- is_undefined_false.
    destruct (is_undefined err); simpl.
    + destruct (resolved w || negb (is_undefined key)); split; discriminate.
    + split; reflexivity.
  - intros h k w. unfold error_consistent; simpl.
    destruct (resolved w); split; try discriminate; intro H; contradiction.
  - intros v w H. exact H.
Qed.

Lemma error_iff_errored_witness :
  let w := run [Settle 1 (Rejected (VObject 7)); Microtask; Microtask]
               (createResource None (fun _ _ => Normal (VPromise (Fetched 1)))
                               VUndefined []) in
  state w = errored /\ error_consistent w.
Proof.
  split; [reflexivity|].
  apply (proj1 error_iff_errored).
  apply reachable_run. constructor.
Defined.

(** * [mutate] *)

Lemma mutate_eq (v : val) (w : world) :
  mutate v w = (v, with_log (SetData v :: log w) (with_data v w)).
Proof. reflexivity. Qed.

Lemma mutate_all_frame (vs : list val) (w : world) :
  let w' := mutate_all vs w in
  error w' = error w /\ state w' = state w /\ resolved w' = resolved w /\
  currentPromise w' = currentPromise w /\ scheduled w' = scheduled w /\
  dynamic w' = dynamic w /\ microtasks w' = microtasks w /\
  reactions w' = reactions w /\ settled w' = settled w /\ nextId w' = nextId w.
Proof.
  revert w. induction vs as [|v vs IH]; intros w; simpl.
  - repeat split.
  - specialize (IH (snd (mutate v w))). simpl in IH. exact IH.
Qed.

Lemma mutate_all_last (vs : list val) (v : val) (w : world) :
  data (mutate_all (vs ++ [v]) w) = v.
Proof.
  unfold mutate_all. rewrite fold_left_app. reflexivity.
Qed.

(** C8, as stated, fails on an errored resource: after the fetcher threw,
    [mutate(42)] writes the data cell, yet calling the resource still throws
    the stored error instead of returning 42. *)
Lemma mutate_hidden_while_errored :
  let w := createResource None (fun _ _ => Throw (VStr "boom")) VUndefined [] in
  let w' := snd (mutate (VNum 42) w) in
  reachable w /\ data w' = VNum 42 /\
  read w' = Throw (VError "boom" (VStr "boom")) /\
  read w' <> Normal (VNum 42).
Proof.
  cbv zeta. split; [constructor|].
  split; [vm_compute; reflexivity|].
  split; [vm_compute; reflexivity|vm_compute; discriminate].
Qed.

(** C8, amended.  [mutate(v)] returns [v], writes it into the data cell
    (one write, outside any batch) and changes nothing else: not the state
    cell, the error cell, the resolved flag, the in-flight handle nor the
    scheduled flag.  After any sequence of [mutate] calls the data cell
    holds the last value; calling the resource returns it unless the
    resource is errored, in which case the call keeps throwing the stored
    error. *)
Theorem mutate_writes_data_only :
  (forall v w, mutate v w = (v, with_log (SetData v :: log w) (with_data v w))) /\
  (forall vs v w,
     let w' := mutate_all (vs ++ [v]) w in
     data w' = v /\
     state w' = state w /\ error w' = error w /\ resolved w' = resolved w /\
     currentPromise w' = currentPromise w /\ scheduled w' = scheduled w /\
     read w' = match read w with
               | Throw e => Throw e
               | Normal _ => Normal v
               end).
Proof.
  split; [exact mutate_eq|].
  intros vs v w w'.
  destruct (mutate_all_frame (vs ++ [v]) w) as (He & Hs & Hr & Hp & Hsch & _).
  fold w' in He, Hs, Hr, Hp, Hsch.
  assert (Hd : data w' = v) by apply mutate_all_last.
  repeat (split; [assumption|]).
  unfold read. rewrite He, Hs, Hd.
  destruct (negb (is_undefined (error w)) &&
            (if ResourceState_eq_dec (state w) errored then true else false));
    reflexivity.
Qed.

(** * The resolved flag *)

Lemma disabled_false_defined (k : val) : disabled k = false -> is_undefined k = false.
Proof. destruct k; intros H; try reflexivity; discriminate H. Qed.

Lemma loadEnd_resolved (p : option handle) (v err key : val) (w : world) :
  resolved (snd (loadEnd p v err key w)) =
  resolved w || (same_promise (currentPromise w) p && negb (is_undefined key)).
Proof.
  rewrite loadEnd_eq; simpl.
  destruct (same_promise (currentPromise w) p); simpl.
  - reflexivity.
  - rewrite orb_false_r. reflexivity.
Qed.

Lemma completion_of_resolved (r : reaction) (s : settlement) (w : world) :
  resolved (completion_of r s w) =
  resolved w || (same_promise (currentPromise w) (Some (on r)) &&
                 negb (is_undefined (key r))).
Proof. destruct s; apply loadEnd_resolved. Qed.

Lemma load_resolved_mono (f : ResourceFetcher) (arg : val) (w : world) :
  resolved w = true -> resolved (snd (load f arg w)) = true.
Proof.
  intros H. destruct (load_paths f arg w); simpl; rewrite ?H; reflexivity || assumption.
Qed.

Lemma settle_resolved (h : handle) (s : settlement) (w : world) :
  resolved (snd (settle h s w)) = resolved w.
Proof.
  rewrite settle_eq; simpl. destruct (lookup h (settled w)); reflexivity.
Qed.

Lemma step_resolved_mono (a : action) (w : world) :
  resolved w = true -> resolved (step a w) = true.
Proof.
  intros H. destruct a as [info f|v f|v|n s|]; simpl.
  - apply load_resolved_mono, H.
  - destruct (dynamic w); [|assumption]. apply load_resolved_mono. exact H.
  - exact H.
  - rewrite settle_resolved. exact H.
  - destruct (microtasks w) as [|[|r s] rest]; try assumption.
    rewrite run_job_React, settle_resolved, completion_of_resolved.
    simpl. rewrite H. reflexivity.
Qed.

Lemma run_resolved_mono (acts : list action) (w : world) :
  resolved w = true -> resolved (run acts w) = true.
Proof.
  revert w. induction acts as [|a acts IH]; intros w H; simpl.
  - assumption.
  - apply IH, step_resolved_mono, H.
Qed.

(** C7, as stated, fails for a stale completion: a load started with the
    key [true] whose source is switched off while the fetch is in flight.
    When the fetch resolves, its continuation runs with a key that is not
    falsy, and the resolved flag stays false. *)
Lemma stale_completion_leaves_unresolved :
  let fetcher : ResourceFetcher := fun _ _ => Normal (VPromise (Fetched 1)) in
  let r := mkReaction (Fetched 1) (VBool true) 0 in
  let w := run [SourceChange (VBool false) fetcher;
                Settle 1 (Fulfilled (VStr "late")); Microtask]
               (createResource (Some (VBool true)) fetcher VUndefined []) in
  reachable w /\
  microtasks w = [React r (Fulfilled (VStr "late"))] /\
  disabled (key r) = false /\
  resolved w = false /\
  resolved (step Microtask w) = false /\
  state (step Microtask w) = unresolved.
Proof.
  cbv zeta. split; [|repeat split; vm_compute; reflexivity].
  apply (reachable_run
           [SourceChange (VBool false) (fun _ _ => Normal (VPromise (Fetched 1)));
            Settle 1 (Fulfilled (VStr "late")); Microtask]).
  constructor.
Qed.

(** C7, amended.  A completion raises the resolved flag exactly when it is
    applied (its handle is the tracked one) and carries a key; every
    completion of a load whose source is enabled carries one.  So the flag
    is true after every synchronous completion with an enabled source,
    success or failure, and after every asynchronous one that is still
    current.  No step ever lowers the flag. *)
Theorem resolved_raised_once_applied :
  (forall p v err key w,
     resolved (snd (loadEnd p v err key w)) =
     resolved w || (same_promise (currentPromise w) p && negb (is_undefined key))) /\
  (forall f arg w,
     deduped arg w = false -> disabled (source_key w) = false ->
     (forall h, f (source_key w) (info_of arg w) <> Normal (VPromise h)) ->
     resolved (snd (load f arg w)) = true) /\
  (forall r s w,
     currentPromise w = Some (on r) -> disabled (key r) = false ->
     resolved (completion_of r s w) = true) /\
  (forall r s w,
     currentPromise w <> Some (on r) ->
     resolved (completion_of r s w) = resolved w) /\
  (forall a w, resolved w = true -> resolved (step a w) = true) /\
  (forall acts w, resolved w = true -> resolved (run acts w) = true).
Proof.
  split; [exact loadEnd_resolved|].
  split; [|split; [|split; [|split; [exact step_resolved_mono|exact run_resolved_mono]]]].
  - intros f arg w Hd Hk Hsync.
    pose proof (disabled_false_defined _ Hk) as Hdef.
    destruct (load_paths f arg w); simpl; try congruence;
      rewrite Hdef; simpl; apply orb_true_r.
  - intros r s w Hp Hk. rewrite completion_of_resolved.
    rewrite (disabled_false_defined _ Hk). rewrite Hp, same_promise_refl.
    apply orb_true_r.
  - intros r s w Hp. rewrite completion_of_resolved.
    destruct (same_promise (currentPromise w) (Some (on r))) eqn:E.
    + apply same_promise_true in E. contradiction.
    + apply orb_false_r.
Qed.

Lemma resolved_raised_once_applied_witness :
  let fetcher : ResourceFetcher := fun _ _ => Throw (VStr "boom") in
  let w0 := with_dynamic (Some (VNum 0))
              (createResource (Some VNull) fetcher VUndefined []) in
  resolved w0 = false /\
  resolved (snd (load fetcher (VBool false) w0)) = true /\
  resolved (run [SourceChange VNull fetcher; Mutate VNull]
                (snd (load fetcher (VBool false) w0))) = true.
Proof.
  cbv zeta.
  assert (H : resolved
                (snd (load (fun _ _ => Throw (VStr "boom")) (VBool false)
                   (with_dynamic (Some (VNum 0))
                      (createResource (Some VNull) (fun _ _ => Throw (VStr "boom"))
                         VUndefined [])))) = true).
  { apply (proj1 (proj2 resolved_raised_once_applied)).
    - vm_compute; reflexivity.
    - vm_compute; reflexivity.
    - intros h. vm_compute. discriminate. }
  split; [vm_compute; reflexivity|]. split; [exact H|].
  apply (proj2 (proj2 (proj2 (proj2 (proj2 resolved_raised_once_applied))))).
  exact H.
Defined.

(** * Error normalization *)

(** C4, as stated, fails for a thrown number: its string form is "42", the
    message the code gives is "Unknown error". *)
Lemma castError_number_message :
  String_ (VNum 42) = "42" /\
  castError (VNum 42) = VError "Unknown error" (VNum 42) /\
  castError_spec (VNum 42) = VError "42" (VNum 42) /\
  castError (VNum 42) <> castError_spec (VNum 42).
Proof.
  repeat split; try (vm_compute; reflexivity). vm_compute. discriminate.
Qed.

(** C4, amended.  [castError] returns an error object unchanged; any other
    value is wrapped into an error object whose cause is the value and
    whose message is the value itself when it is a string, and the literal
    "Unknown error" otherwise (numbers, booleans, null, undefined, records).
    The result is always an error object.  It is what gets stored and
    thrown: a fetcher that throws a value other than undefined leaves the
    normalized error in the error cell, state [errored], and calling the
    resource throws it; so does a rejection whose completion is current. *)
Theorem castError_wraps_non_errors :
  (forall err, instanceof_Error err = true -> castError err = err) /\
  (forall err, instanceof_Error err = false ->
     castError err = VError (message_of err) err) /\
  (forall s, castError (VStr s) = VError s (VStr s)) /\
  (forall err, instanceof_Error (castError err) = true) /\
  (forall f arg w e,
     deduped arg w = false -> disabled (source_key w) = false ->
     f (source_key w) (info_of arg w) = Throw e -> e <> VUndefined ->
     let w' := snd (load f arg w) in
     error w' = castError e /\ state w' = errored /\ data w' = data w /\
     read w' = Throw (castError e)) /\
  (forall r e w,
     currentPromise w = Some (on r) ->
     let w' := completion_of r (Rejected e) w in
     error w' = castError e /\ state w' = errored /\ data w' = data w /\
     read w' = Throw (castError e)).
Proof.
  split; [|split; [|split; [|split; [exact castError_is_error|split]]]].
  - intros err H. unfold castError. rewrite H. reflexivity.
  - intros err H. unfold castError. rewrite H. reflexivity.
  - reflexivity.
  - intros f arg w e Hd Hk Hf He w'. subst w'.
    apply is_undefined_false in He.
    rewrite (load_throw f arg w e Hd Hk Hf He); simpl.
    unfold read; simpl. rewrite castError_defined; simpl.
    repeat split; reflexivity.
  - intros r e w Hp w'. subst w'. rewrite completion_of_eq.
    rewrite Hp, same_promise_refl; simpl.
    unfold read; simpl. rewrite castError_defined; simpl.
    repeat split; reflexivity.
Qed.

Lemma castError_wraps_non_errors_witness :
  let fetcher : ResourceFetcher := fun _ _ => Throw (VNum 42) in
  let w := createResource None (fun _ _ => Normal (VStr "ok")) VUndefined [] in
  let w' := snd (load fetcher VUndefined w) in
  castError (VObject 1) = VError "Unknown error" (VObject 1) /\
  castError (VError "e" VUndefined) = VError "e" VUndefined /\
  (error w' = castError (VNum 42) /\ state w' = errored /\ data w' = data w /\
   read w' = Throw (castError (VNum 42))).
Proof.
  cbv zeta. split; [|split].
  - apply (proj1 (proj2 castError_wraps_non_errors)). reflexivity.
  - apply (proj1 castError_wraps_non_errors). reflexivity.
  - apply (proj1 (proj2 (proj2 (proj2 (proj2 castError_wraps_non_errors))))
             (fun _ _ => Throw (VNum 42)) VUndefined).
    + vm_compute; reflexivity.
    + vm_compute; reflexivity.
    + reflexivity.
    + discriminate.
Defined.

(** * A fetcher that throws undefined *)

(** C1.  The code departs from the claim for a fetcher that throws
    [undefined].  The [catch] of [load] stores the thrown value in
    [fetchError] and the test [fetchError !== undefined] then does not see
    the throw: the load is finalized as a success with the value undefined,
    so the data cell is overwritten with undefined, the error cell is
    cleared and the state becomes [ready]; nothing is normalized and
    nothing is thrown by a later call of the resource.  The claim has every
    synchronous throw leave the data untouched and store the normalized
    error, which is what the code does for every other thrown value, and
    for a promise rejected with [undefined]: there [castError(undefined)],
    an error object with the message "Unknown error", reaches the error
    cell and the state becomes [errored]. *)
Theorem thrown_undefined_taken_as_success :
  (forall f arg w,
     deduped arg w = false -> disabled (source_key w) = false ->
     f (source_key w) (info_of arg w) = Throw VUndefined ->
     let w' := snd (load f arg w) in
     data w' = VUndefined /\ error w' = VUndefined /\ state w' = ready /\
     read w' = Normal VUndefined /\ fst (load f arg w) = VUndefined) /\
  (forall f arg w e,
     deduped arg w = false -> disabled (source_key w) = false ->
     f (source_key w) (info_of arg w) = Throw e -> e <> VUndefined ->
     let w' := snd (load f arg w) in
     data w' = data w /\ error w' = castError e /\ state w' = errored) /\
  (forall r w,
     currentPromise w = Some (on r) ->
     let w' := completion_of r (Rejected VUndefined) w in
     data w' = data w /\ error w' = VError "Unknown error" VUndefined /\
     state w' = errored /\
     read w' = Throw (VError "Unknown error" VUndefined)).
Proof.
  split; [|split].
  - intros f arg w Hd Hk Hf w'. subst w'.
    rewrite (load_throw_undefined f arg w Hd Hk Hf); simpl.
    rewrite (disabled_false_defined _ Hk), orb_true_r.
    unfold read; simpl. repeat split.
  - intros f arg w e Hd Hk Hf He w'. subst w'.
    apply is_undefined_false in He.
    rewrite (load_throw f arg w e Hd Hk Hf He); simpl.
    rewrite castError_defined. repeat split.
  - intros r w Hp w'. subst w'. rewrite completion_of_eq.
    rewrite Hp, same_promise_refl. unfold read; simpl. repeat split.
Qed.

Lemma thrown_undefined_taken_as_success_witness :
  let fetcher : ResourceFetcher :=
    fun _ info =>
      match refetching info with
      | VBool false => Normal (VStr "kept")
      | _ => Throw VUndefined
      end in
  let w := createResource None fetcher VUndefined [] in
  let w' := snd (load fetcher VUndefined w) in
  data w = VStr "kept" /\
  (data w' = VUndefined /\ error w' = VUndefined /\ state w' = ready /\
   read w' = Normal VUndefined /\ fst (load fetcher VUndefined w) = VUndefined).
Proof.
  cbv zeta. split; [vm_compute; reflexivity|].
  apply (proj1 thrown_undefined_taken_as_success).
  - vm_compute; reflexivity.
  - vm_compute; reflexivity.
  - reflexivity.
Defined.

(** * [refetch] *)


Lemma load_logs_call (f : ResourceFetcher) (arg : val) (w : world) :
  deduped arg w = false -> disabled (source_key w) = false ->
  exists recent,
    log (snd (load f arg w)) =
    recent ++ FetcherCall (source_key w) (info_of arg w) :: log w /\
    fetcher_calls recent = 0.
Proof.
  intros Hd Hk. destruct (load_paths f arg w); try congruence; simpl.
  - exists [EndBatch; SetError (castError e); SetState errored; StartBatch].
    rewrite castError_defined. split; reflexivity.
  - exists [EndBatch; SetError VUndefined;
            SetState (if resolved w || negb (is_undefined (source_key w))
                      then ready else unresolved);
            SetData v; StartBatch].
    split; reflexivity.
  - exists [EndBatch; SetError VUndefined;
            SetState (if resolved w then refreshing else pending); StartBatch].
    split; reflexivity.
Qed.




(** * The promise returned by [load] *)

Lemma job_fulfils_derived (w : world) (r : reaction) (s : settlement) (rest : list job) :
  wf w -> microtasks w = React r s :: rest ->
  lookup (Chained (on r) (derived r)) (settled (step Microtask w)) =
  Some (Fulfilled (payload s)).
Proof.
  intros Hw Hq. simpl. rewrite Hq, run_job_React, settle_eq; simpl.
  destruct (completion_of_frame r s (with_microtasks rest w)) as (_ & _ & Hst & _).
  simpl in Hst.
  destruct (lookup (Chained (on r) (derived r))
              (settled (completion_of r s (with_microtasks rest w)))) as [x|] eqn:E.
  - rewrite E. rewrite Hst in E.
    destruct (wf_chained w Hw _ _ _ E) as [_ [sp [Hsp Hx]]].
    assert (Hj : lookup (on r) (settled w) = Some s).
    { apply (wf_jobs w Hw). rewrite Hq. left; reflexivity. }
    congruence.
  - simpl. apply lookup_head.
Qed.

Lemma load_async_registers (f : ResourceFetcher) (arg : val) (w : world) (h : handle) :
  deduped arg w = false -> disabled (source_key w) = false ->
  f (source_key w) (info_of arg w) = Normal (VPromise h) ->
  let r := mkReaction h (source_key w) (nextId w) in
  match lookup h (settled w) with
  | Some s => In (React r s) (microtasks (snd (load f arg w)))
  | None => In r (reactions (snd (load f arg w)))
  end.
Proof.
  intros Hd Hk Hf r. rewrite (load_async f arg w h Hd Hk Hf); simpl.
  destruct (lookup h (settled w)); apply in_or_app; right; left; reflexivity.
Qed.

Lemma settle_queues_reaction (n : nat) (s : settlement) (w : world) (r : reaction) :
  lookup (Fetched n) (settled w) = None ->
  In r (reactions w) -> on r = Fetched n ->
  In (React r s) (microtasks (step (Settle n s) w)).
Proof.
  intros Hl Hin Hon. simpl. rewrite settle_eq, Hl; simpl.
  apply in_or_app. right. apply (in_map (fun r0 => React r0 s)).
  apply filter_In. split; [assumption|].
  unfold waits_on. rewrite Hon.
  destruct (handle_eq_dec (Fetched n) (Fetched n)); congruence.
Qed.

Lemma loadEnd_flushed_loadEnd (flush : world -> completion) (p : option handle)
    (v err key : val) (w : world) :
  loadEnd_flushed flush p v err key w =
  if same_promise (currentPromise w) p then
    (match flush (snd (loadEnd p v err key w)) with
     | Throw e => Throw e
     | Normal _ => Normal v
     end, snd (loadEnd p v err key w))
  else (Normal v, w).
Proof.
  unfold loadEnd_flushed, loadEnd, completeLoad_flushed, completeLoad,
    batch_flushed, batch, when, bind, gets, modify, emit, ret; simpl.
  destruct (same_promise (currentPromise w) p); [|reflexivity].
  destruct (is_undefined err), (is_undefined key); simpl;
    match goal with |- context [flush ?x] => destruct (flush x) end; reflexivity.
Qed.

Lemma loadEnd_flushed_eq (flush : world -> completion) (p : option handle)
    (v err key : val) (w : world) :
  loadEnd_flushed flush p v err key w =
  if same_promise (currentPromise w) p then
    (match flush (finalized v err key w) with
     | Throw e => Throw e
     | Normal _ => Normal v
     end, finalized v err key w)
  else (Normal v, w).
Proof.
  rewrite loadEnd_flushed_loadEnd, loadEnd_eq; simpl.
  destruct (same_promise (currentPromise w) p); reflexivity.
Qed.

Lemma continuation_flushed_eq (flush : world -> completion) (r : reaction)
    (s : settlement) (w : world) :
  continuation_flushed flush r s w =
  if same_promise (currentPromise w) (Some (on r)) then
    (match flush (completion_of r s w) with
     | Throw e => Throw e
     | Normal _ => Normal (payload s)
     end, completion_of r s w)
  else (Normal (payload s), w).
Proof.
  rewrite completion_of_eq.
  destruct s; unfold continuation_flushed; rewrite loadEnd_flushed_eq;
    destruct (same_promise (currentPromise w) (Some (on r))); reflexivity.
Qed.

(** C9, as stated, fails when a subscriber of the cells throws.  A resource
    that is ready is called by an effect ([createEffect(() => resource())]),
    and [refetch()] returns the promise chained on the fetcher's.  The
    fetcher's promise is rejected: the continuation writes [errored] and
    the normalized error, the batch closes and runs the effect, which calls
    the resource and is thrown the error; the throw comes out of [loadEnd]
    and of the continuation, and the promise that [refetch()] returned is
    rejected with it. *)
Lemma awaitable_rejects_when_subscriber_throws :
  let fetcher : ResourceFetcher :=
    fun _ info =>
      match refetching info with
      | VBool false => Normal (VStr "v")
      | _ => Normal (VPromise (Fetched 2))
      end in
  let w0 := createResource None fetcher VUndefined [] in
  let w := snd (refetch fetcher VUndefined w0) in
  let r := mkReaction (Fetched 2) (VBool true) 0 in
  let answer := continuation_flushed calls_the_resource r (Rejected (VStr "no")) w in
  fst (refetch fetcher VUndefined w0) = VPromise (Chained (Fetched 2) 0) /\
  reactions w = [r] /\
  calls_the_resource w = Normal (VStr "v") /\
  error (snd answer) = VError "no" (VStr "no") /\
  state (snd answer) = errored /\
  fst answer = Throw (VError "no" (VStr "no")) /\
  outcome (fst answer) = Rejected (VError "no" (VStr "no")).
Proof.
  cbv zeta. repeat split; vm_compute; reflexivity.
Qed.

(** C9, amended.  For a fetcher that returns the promise [h], [load]
    returns the promise chained on [h] and registers its reaction on [h]:
    queued at once if [h] has settled, and queued when [h] settles
    otherwise.  A stale continuation writes nothing, runs no subscriber and
    returns the value it was given, undefined for a rejection.  A current
    one routes a rejection into the cells (the normalized error in the
    error cell, state [errored], data untouched) and a fulfilment into the
    data cell; it returns undefined, or the value, unless a subscriber run
    when the batch closes throws, in which case it throws the same and the
    promise returned by [load] is rejected with it.  With subscribers that
    do not throw the continuation is the one the steps run, the job that
    runs it fulfils the promise, and in every reachable world a settled
    promise returned by [load] is fulfilled: with the value of the
    fetcher's promise, or with undefined if that one was rejected. *)
Theorem load_awaitable_rejects_only_by_subscriber :
  (forall f arg w h,
     deduped arg w = false -> disabled (source_key w) = false ->
     f (source_key w) (info_of arg w) = Normal (VPromise h) ->
     fst (load f arg w) = VPromise (Chained h (nextId w)) /\
     let r := mkReaction h (source_key w) (nextId w) in
     match lookup h (settled w) with
     | Some s => In (React r s) (microtasks (snd (load f arg w)))
     | None => In r (reactions (snd (load f arg w)))
     end) /\
  (forall n s w r,
     lookup (Fetched n) (settled w) = None ->
     In r (reactions w) -> on r = Fetched n ->
     In (React r s) (microtasks (step (Settle n s) w))) /\
  (forall flush r s w,
     currentPromise w <> Some (on r) ->
     continuation_flushed flush r s w = (Normal (payload s), w)) /\
  (forall flush r e w,
     currentPromise w = Some (on r) ->
     let w' := finalized VUndefined (castError e) (key r) w in
     snd (continuation_flushed flush r (Rejected e) w) = w' /\
     error w' = castError e /\ state w' = errored /\ data w' = data w /\
     outcome (fst (continuation_flushed flush r (Rejected e) w)) =
     match flush w' with
     | Throw x => Rejected x
     | Normal _ => Fulfilled VUndefined
     end) /\
  (forall flush r v w,
     currentPromise w = Some (on r) ->
     let w' := finalized v VUndefined (key r) w in
     snd (continuation_flushed flush r (Fulfilled v) w) = w' /\
     data w' = v /\ error w' = VUndefined /\
     outcome (fst (continuation_flushed flush r (Fulfilled v) w)) =
     match flush w' with
     | Throw x => Rejected x
     | Normal _ => Fulfilled v
     end) /\
  (forall flush,
     (forall w', Reactive.throws (flush w') = false) ->
     forall r s w, continuation_flushed flush r s w = continuation r s w) /\
  (forall w r s rest,
     reachable w -> microtasks w = React r s :: rest ->
     lookup (Chained (on r) (derived r)) (settled (step Microtask w)) =
     Some (Fulfilled (payload s))) /\
  (forall w p n s,
     reachable w -> lookup (Chained p n) (settled w) = Some s ->
     exists sp, lookup p (settled w) = Some sp /\ s = Fulfilled (payload sp)).
Proof.
  split; [|split; [exact settle_queues_reaction
                  |split; [|split; [|split; [|split; [|split]]]]]].
  - intros f arg w h Hd Hk Hf. split.
    + rewrite (load_async f arg w h Hd Hk Hf). reflexivity.
    + apply load_async_registers; assumption.
  - intros flush r s w Hp. rewrite continuation_flushed_eq.
    destruct (same_promise (currentPromise w) (Some (on r))) eqn:E; [|reflexivity].
    apply same_promise_true in E. contradiction.
  - intros flush r e w Hp w'. subst w'.
    rewrite continuation_flushed_eq, completion_of_eq, Hp, same_promise_refl.
    simpl. rewrite castError_defined.
    repeat split.
    match goal with |- context [flush ?x] => destruct (flush x) end; reflexivity.
  - intros flush r v w Hp w'. subst w'.
    rewrite continuation_flushed_eq, completion_of_eq, Hp, same_promise_refl.
    simpl. repeat split.
    match goal with |- context [flush ?x] => destruct (flush x) end; reflexivity.
  - intros flush Hquiet r s w.
    rewrite continuation_flushed_eq, continuation_eq.
    destruct (same_promise (currentPromise w) (Some (on r))) eqn:E.
    + pose proof (Hquiet (completion_of r s w)) as Hq.
      destruct (flush (completion_of r s w)); [reflexivity|discriminate].
    + rewrite completion_of_eq, E. reflexivity.
  - intros w r s rest Hr Hq. apply (job_fulfils_derived w r s rest); [|assumption].
    apply reachable_wf, Hr.
  - intros w p n s Hr Hl. apply reachable_wf in Hr.
    destruct (wf_chained w Hr _ _ _ Hl) as [_ H]. exact H.
Qed.

Lemma load_awaitable_rejects_only_by_subscriber_witness :
  let fetcher : ResourceFetcher := fun _ _ => Normal (VPromise (Fetched 1)) in
  let w0 := createResource None fetcher VUndefined [] in
  let w := run [Settle 1 (Rejected (VStr "no")); Microtask] w0 in
  let r := mkReaction (Fetched 1) (VBool true) 0 in
  let quiet : world -> completion := fun _ => Normal VUndefined in
  let w' := finalized VUndefined (castError (VStr "no")) (key r) w0 in
  lookup (Fetched 1) (settled w) = Some (Rejected (VStr "no")) /\
  lookup (Chained (on r) (derived r)) (settled (step Microtask w)) =
  Some (Fulfilled (payload (Rejected (VStr "no")))) /\
  (snd (continuation_flushed quiet r (Rejected (VStr "no")) w0) = w' /\
   error w' = castError (VStr "no") /\ state w' = errored /\ data w' = data w0 /\
   outcome (fst (continuation_flushed quiet r (Rejected (VStr "no")) w0)) =
   match quiet w' with
   | Throw x => Rejected x
   | Normal _ => Fulfilled VUndefined
   end) /\
  continuation_flushed quiet r (Fulfilled VNull) (with_currentPromise None w0) =
  (Normal (payload (Fulfilled VNull)), with_currentPromise None w0).
Proof.
  cbv zeta. split; [vm_compute; reflexivity|]. split; [|split].
  - apply (proj1 (proj2 (proj2 (proj2 (proj2 (proj2 (proj2
             load_awaitable_rejects_only_by_subscriber))))))) with (rest := []).
    + apply reachable_run. constructor.
    + vm_compute; reflexivity.
  - apply (proj1 (proj2 (proj2 (proj2 load_awaitable_rejects_only_by_subscriber)))
             (fun _ => Normal VUndefined) (mkReaction (Fetched 1) (VBool true) 0)).
    vm_compute; reflexivity.
  - apply (proj1 (proj2 (proj2 load_awaitable_rejects_only_by_subscriber))).
    vm_compute. discriminate.
Defined.

(** * Duplicate-refetch suppression *)









Lemma loadEnd_applies_iff_current_witness :
  let w := createResource None (fun _ _ => Normal (VPromise (Fetched 1))) VUndefined [] in
  snd (loadEnd (Some (Fetched 2)) (VStr "stale") VUndefined (VBool true) w) = w /\
  snd (loadEnd (Some (Fetched 1)) (VStr "fresh") VUndefined (VBool true) w) <> w.
Proof.
  cbv zeta. split.
  - apply (proj1 (proj2 (proj2 loadEnd_applies_iff_current))).
    vm_compute. discriminate.
  - intro H.
    apply (proj1 (proj1 (proj2 (proj2 loadEnd_applies_iff_current)) _ _ _ _ _) H).
    vm_compute; reflexivity.
Defined.

Lemma mutate_writes_data_only_witness :
  let w := createResource None (fun _ _ => Normal (VNum 1)) VUndefined [] in
  let w' := mutate_all ([VNum 7; VNum 8] ++ [VNum 42]) w in
  data w' = VNum 42 /\ state w' = state w /\ read w' = Normal (VNum 42).
Proof.
  cbv zeta.
  destruct (proj2 mutate_writes_data_only [VNum 7; VNum 8] (VNum 42)
              (createResource None (fun _ _ => Normal (VNum 1)) VUndefined []))
    as (Hd & Hs & _ & _ & _ & _ & Hr).
  split; [exact Hd|]. split; [exact Hs|]. exact Hr.
Defined.

(** * Further properties of the engine *)

(** ** A second invariant *)

Lemma tracked_finalized (v err key : val) (w : world) :
  (is_undefined err = false -> is_undefined key = false) ->
  tracked w -> tracked (finalized v err key w).
Proof.
  intros Hkey [H1 H2 H3 H4]. constructor; simpl; try assumption.
  - intros H. contradiction.
  - destruct (is_undefined err) eqn:He.
    + destruct (resolved w || negb (is_undefined key)); discriminate.
    + intros _. rewrite (Hkey eq_refl). apply orb_true_r.
Qed.

Lemma tracked_unscheduled (l : list event) (w : world) :
  tracked w -> tracked (with_log l (with_scheduled false w)).
Proof. intros [H1 H2 H3 H4]. constructor; assumption. Qed.

Lemma tracked_started (h : handle) (k : val) (w : world) :
  disabled k = false -> wf w -> tracked w -> tracked (started h k w).
Proof.
  intros Hk Hw [H1 H2 H3 H4]. constructor; simpl.
  - intros _. unfold loading; simpl. destruct (resolved w); reflexivity.
  - destruct (resolved w); discriminate.
  - intros r s Hin. apply in_app_or in Hin. destruct Hin as [Hin|Hin].
    + apply in_app_or in Hin. destruct Hin as [Hin|[Hin|[]]]; [|discriminate].
      exact (H3 r s Hin).
    + destruct (lookup h (settled w)); [|destruct Hin].
      destruct Hin as [Hin|[]]. injection Hin as <- <-. exact Hk.
  - intros r Hin. apply in_app_or in Hin. destruct Hin as [Hin|Hin].
    + exact (H4 r Hin).
    + destruct (lookup h (settled w)); [destruct Hin|].
      destruct Hin as [<-|[]]. exact Hk.
Qed.

Lemma tracked_load (f : ResourceFetcher) (arg : val) (w : world) :
  wf w -> tracked w -> tracked (snd (load f arg w)).
Proof.
  intros Hw Ht.
  destruct (load_paths f arg w) as [H|H1 H2|e H1 H2 H3 H4|v H1 H2 H3 H4|h H1 H2 H3];
    simpl.
  - assumption.
  - apply tracked_finalized; [discriminate|].
    destruct Ht as [T1 T2 T3 T4]. constructor; assumption.
  - apply tracked_finalized; [|apply tracked_unscheduled, Ht].
    intros _. apply disabled_false_defined, H2.
  - apply tracked_finalized; [discriminate|apply tracked_unscheduled, Ht].
  - apply tracked_started; [assumption|apply wf_unscheduled, Hw
                                      |apply tracked_unscheduled, Ht].
Qed.

Lemma tracked_completion_of (r : reaction) (s : settlement) (w : world) :
  disabled (key r) = false -> tracked w -> tracked (completion_of r s w).
Proof.
  intros Hk Ht. rewrite completion_of_eq.
  destruct (same_promise (currentPromise w) (Some (on r))); [|assumption].
  destruct s; apply tracked_finalized; try assumption.
  - discriminate.
  - intros _. apply disabled_false_defined, Hk.
Qed.

Lemma tracked_settled_with (h : handle) (s : settlement) (w : world) :
  tracked w -> tracked (settled_with h s w).
Proof.
  intros [H1 H2 H3 H4]. constructor; simpl; try assumption.
  - intros r x Hin. apply in_app_or in Hin. destruct Hin as [Hin|Hin].
    + exact (H3 r x Hin).
    + apply in_map_iff in Hin. destruct Hin as [r' [Heq Hin]].
      injection Heq as -> _. apply filter_In in Hin. exact (H4 r (proj1 Hin)).
  - intros r Hin. apply filter_In in Hin. exact (H4 r (proj1 Hin)).
Qed.

Lemma tracked_settle (h : handle) (s : settlement) (w : world) :
  tracked w -> tracked (snd (settle h s w)).
Proof.
  intros Ht. rewrite settle_eq; simpl.
  destruct (lookup h (settled w)); [assumption|apply tracked_settled_with, Ht].
Qed.

Lemma tracked_step (a : action) (w : world) :
  wf w -> tracked w -> tracked (step a w).
Proof.
  intros Hw Ht. destruct a as [info f|v f|v|n s|]; simpl.
  - apply tracked_load; assumption.
  - destruct (dynamic w) eqn:E; [|assumption].
    apply tracked_load.
    + destruct Hw as [H1 H2 H3 H4 H5 H6 H7 H8]. constructor; assumption.
    + destruct Ht as [T1 T2 T3 T4]. constructor; assumption.
  - destruct Ht as [T1 T2 T3 T4]. constructor; assumption.
  - apply tracked_settle, Ht.
  - destruct (microtasks w) as [|[|r s] rest] eqn:E; [assumption| |].
    + destruct Ht as [T1 T2 T3 T4]. constructor; simpl; try assumption.
      intros r s Hin. apply (T3 r s). rewrite E. right; assumption.
    + rewrite run_job_React. apply tracked_settle.
      assert (Hk : disabled (key r) = false).
      { apply (tracked_jobs w Ht r s). rewrite E. left; reflexivity. }
      apply tracked_completion_of; [assumption|].
      destruct Ht as [T1 T2 T3 T4]. constructor; simpl; try assumption.
      intros r' s' Hin. apply (T3 r' s'). rewrite E. right; assumption.
Qed.

Lemma tracked_createResource (source : option val) (f : ResourceFetcher)
    (initialValue : val) (heap : list (nat * settlement)) :
  tracked (createResource source f initialValue heap).
Proof.
  unfold createResource.
  match goal with |- tracked (snd (load _ _ ?w0)) => set (w := w0) end.
  assert (Hw : wf w).
  { constructor; simpl.
    - destruct (is_undefined initialValue); split; discriminate.
    - left; reflexivity.
    - discriminate.
    - unfold loading; simpl. destruct (is_undefined initialValue); discriminate.
    - destruct (is_undefined initialValue); reflexivity.
    - intros r s [].
    - intros r [].
    - intros p n s H. rewrite lookup_heap in H. discriminate. }
  apply tracked_load; [exact Hw|].
  constructor; simpl.
  - intros H; contradiction.
  - destruct (is_undefined initialValue); discriminate.
  - intros r s [].
  - intros r [].
Qed.

Lemma reachable_tracked (w : world) : reachable w -> tracked w.
Proof.
  induction 1 as [source f iv heap|a w Hr IH].
  - apply tracked_createResource.
  - apply tracked_step; [apply reachable_wf, Hr|exact IH].
Qed.

(** ** What the accessors agree on *)

(** X1.  In every reachable world [loading] is true exactly when a fetch
    is tracked as in flight. *)
Theorem loading_iff_in_flight (w : world) :
  reachable w -> (loading w = true <-> currentPromise w <> None).
Proof.
  intros Hr. split.
  - apply (wf_loading w (reachable_wf w Hr)).
  - apply (tracked_inflight w (reachable_tracked w Hr)).
Qed.

Lemma loading_iff_in_flight_witness :
  let w := createResource None (returns_promise 1) VUndefined [] in
  loading w = true <-> currentPromise w <> None.
Proof. apply loading_iff_in_flight. constructor. Defined.

(** X2.  In every reachable world the resolved flag is set exactly when
    the state is [ready], [refreshing] or [errored]; it is clear exactly in
    [unresolved] and [pending]. *)
Theorem resolved_iff_state (w : world) :
  reachable w ->
  resolved w = match state w with
               | unresolved | pending => false
               | ready | refreshing | errored => true
               end.
Proof.
  intros Hr.
  pose proof (wf_resolved w (reachable_wf w Hr)) as H.
  pose proof (tracked_errored w (reachable_tracked w Hr)) as He.
  destruct (state w); auto.
Qed.

Lemma resolved_iff_state_witness :
  let w := createResource None (fun _ _ => Throw (VStr "boom")) VUndefined [] in
  resolved w = match state w with
               | unresolved | pending => false
               | ready | refreshing | errored => true
               end.
Proof. apply resolved_iff_state. constructor. Defined.

(** X3.  In every reachable world reading [latest] does what calling the
    resource does: the same value returned, or the same error thrown. *)
Theorem latest_is_read (w : world) :
  reachable w -> latest w = read w.
Proof.
  intros Hr.
  pose proof (reachable_wf w Hr) as Hw.
  pose proof (reachable_tracked w Hr) as Ht.
  unfold latest. destruct (resolved w) eqn:Hres; simpl; [|reflexivity].
  rewrite (truthy_error_cell w Hw). unfold read.
  destruct (currentPromise w) as [p|] eqn:Hp.
  - assert (Hl : loading w = true).
    { apply (tracked_inflight w Ht). rewrite Hp. discriminate. }
    rewrite andb_false_r.
    destruct (ResourceState_eq_dec (state w) errored) as [e|ne].
    + unfold loading in Hl. rewrite e in Hl. discriminate.
    + rewrite andb_false_r. reflexivity.
  - rewrite andb_true_r.
    destruct (is_undefined (error w)) eqn:He; simpl; [reflexivity|].
    apply (wf_error_state w Hw) in He.
    destruct (ResourceState_eq_dec (state w) errored); [reflexivity|contradiction].
Qed.

Lemma latest_is_read_witness :
  let w := run [Settle 1 (Rejected VNull); Microtask; Microtask]
               (createResource None (returns_promise 1) (VNum 3) []) in
  latest w = read w.
Proof. apply latest_is_read. apply reachable_run. constructor. Defined.

(** ** The moves of the state cell *)

Lemma load_refreshing (f : ResourceFetcher) (arg : val) (w : world) :
  state (snd (load f arg w)) = refreshing ->
  state w = refreshing \/ resolved w = true.
Proof.
  destruct (load_paths f arg w) as [H|H1 H2|e H1 H2 H3 H4|v H1 H2 H3 H4|h H1 H2 H3];
    simpl.
  - auto.
  - destruct (resolved w || false); discriminate.
  - rewrite castError_defined. discriminate.
  - destruct (resolved w || negb (is_undefined (source_key w))); discriminate.
  - destruct (resolved w); [auto|discriminate].
Qed.

Lemma completion_of_refreshing (r : reaction) (s : settlement) (w : world) :
  state (completion_of r s w) = refreshing -> state w = refreshing.
Proof.
  rewrite completion_of_eq.
  destruct (same_promise (currentPromise w) (Some (on r))); [|auto].
  destruct s; simpl.
  - destruct (resolved w || negb (is_undefined (key r))); discriminate.
  - rewrite castError_defined. discriminate.
Qed.

Lemma settle_state (h : handle) (s : settlement) (w : world) :
  state (snd (settle h s w)) = state w.
Proof.
  rewrite settle_eq; simpl. destruct (lookup h (settled w)); reflexivity.
Qed.

Lemma step_refreshing (a : action) (w : world) :
  state (step a w) = refreshing -> state w = refreshing \/ resolved w = true.
Proof.
  destruct a as [info f|v f|v|n s|]; simpl.
  - apply load_refreshing.
  - destruct (dynamic w); [|auto]. intros H. apply load_refreshing in H. exact H.
  - auto.
  - rewrite settle_state. auto.
  - destruct (microtasks w) as [|[|r s] rest]; auto.
    rewrite run_job_React, settle_state. intros H.
    apply completion_of_refreshing in H. auto.
Qed.

Ltac move_by a source iv :=
  exists a, source, keyed, iv; cbv zeta; repeat split; vm_compute; reflexivity.

(** X4.  One step moves the state cell only along [allowed]: a resource
    that has left [unresolved] and [pending] never returns to them, and
    [refreshing] is never entered from them.  Every allowed move is made by
    a step the code can take ([genuine]: a source change to a different
    value, a call, a queued microtask; [uses]: with the fetcher the
    resource was built on) from a resource as [createResource] returns
    it. *)
Theorem state_moves_allowed :
  (forall a w, reachable w -> allowed (state w) (state (step a w)) = true) /\
  (forall s s', allowed s s' = true ->
     exists a source f initialValue,
       let w := createResource source f initialValue [] in
       uses a f /\ genuine a w = true /\ state w = s /\ state (step a w) = s').
Proof.
  split.
  - intros a w Hr.
    pose proof (resolved_iff_state w Hr) as H0.
    pose proof (resolved_iff_state (step a w) (reach_step a w Hr)) as H1.
    pose proof (step_resolved_mono a w) as Hm.
    pose proof (step_refreshing a w) as Hf.
    destruct (state w); destruct (state (step a w)); try reflexivity;
      try (rewrite Hm in H1 by assumption; discriminate);
      destruct (Hf eq_refl) as [H|H]; congruence.
  - pose (off := Some VNull).
    pose (later := VStr "later").
    pose (now := VStr "now").
    pose (fail := VStr "fail").
    intros s s' H.
    destruct s, s'; try discriminate H.
    + move_by (Mutate VNull) off VUndefined.
    + move_by (SourceChange later keyed) off VUndefined.
    + move_by (SourceChange now keyed) off VUndefined.
    + move_by (SourceChange fail keyed) off VUndefined.
    + move_by (SourceChange VNull keyed) (Some later) VUndefined.
    + move_by (Mutate VNull) (Some later) VUndefined.
    + move_by (SourceChange now keyed) (Some later) VUndefined.
    + move_by (SourceChange fail keyed) (Some later) VUndefined.
    + move_by (Mutate VNull) (Some now) VUndefined.
    + move_by (SourceChange later keyed) (Some now) VUndefined.
    + move_by (SourceChange fail keyed) (Some now) VUndefined.
    + move_by (SourceChange now keyed) (Some later) (VNum 0).
    + move_by (Mutate VNull) (Some later) (VNum 0).
    + move_by (SourceChange fail keyed) (Some later) (VNum 0).
    + move_by (SourceChange now keyed) (Some fail) VUndefined.
    + move_by (SourceChange later keyed) (Some fail) VUndefined.
    + move_by (Mutate VNull) (Some fail) VUndefined.
Qed.

Lemma state_moves_allowed_witness :
  let w := createResource None (returns_promise 1) VUndefined [] in
  allowed (state w) (state (step (Settle 1 (Fulfilled VNull)) w)) = true.
Proof. apply (proj1 state_moves_allowed). constructor. Defined.


(** ** Construction *)

Lemma createResource_fresh (source : option val) (f : ResourceFetcher)
    (initialValue : val) (heap : list (nat * settlement)) :
  createResource source f initialValue heap =
  snd (load f (VBool false) (fresh source initialValue heap)).
Proof. reflexivity. Qed.

Section Construction.

Variables (source : option val) (fetcher : ResourceFetcher) (initialValue : val).
Variable heap : list (nat * settlement).

(** X5.  A resource built on a fetcher that answers at once with a value
    (the source, if any, being enabled) is ready when [createResource]
    returns: it holds the value, has no error, is not loading, and the
    fetcher has been called once, with the initial value and
    [refetching: false]. *)
Theorem createResource_sync_value (v : val) :
  disabled (key_of source) = false ->
  fetcher (key_of source) (mkInfo initialValue (VBool false)) = Normal v ->
  as_promise v = None ->
  let w := createResource source fetcher initialValue heap in
  state w = ready /\ read w = Normal v /\ latest w = Normal v /\
  error w = VUndefined /\ loading w = false /\ currentPromise w = None /\
  microtasks w = [] /\
  log w = [EndBatch; SetError VUndefined; SetState ready; SetData v; StartBatch;
           FetcherCall (key_of source) (mkInfo initialValue (VBool false))].
Proof.
  intros Hk Hf Hv w. subst w. rewrite createResource_fresh.
  rewrite (load_sync _ _ _ v); try assumption; try reflexivity.
  pose proof (disabled_false_defined _ Hk) as Hd.
  unfold read, latest, loading; simpl.
  change (source_key (fresh source initialValue heap)) with (key_of source).
  rewrite Hd, orb_true_r; simpl. repeat split.
Qed.

(** X6.  A resource built on a fetcher that throws at once (anything but
    undefined) is errored when [createResource] returns: the error cell
    holds the normalized error, calling the resource and reading [latest]
    throw it, and the data cell still holds the initial value. *)
Theorem createResource_sync_throw (e : val) :
  disabled (key_of source) = false ->
  fetcher (key_of source) (mkInfo initialValue (VBool false)) = Throw e ->
  e <> VUndefined ->
  let w := createResource source fetcher initialValue heap in
  state w = errored /\ error w = castError e /\ data w = initialValue /\
  read w = Throw (castError e) /\ latest w = Throw (castError e) /\
  loading w = false /\ currentPromise w = None.
Proof.
  intros Hk Hf He w. subst w. apply is_undefined_false in He.
  rewrite createResource_fresh.
  rewrite (load_throw _ _ _ e); try assumption; try reflexivity.
  pose proof (disabled_false_defined _ Hk) as Hd.
  assert (Ht : truthy (castError e) = true) by (destruct e; reflexivity).
  unfold read, latest, loading; simpl.
  change (source_key (fresh source initialValue heap)) with (key_of source).
  rewrite castError_defined, Hd, orb_true_r, Ht; simpl. repeat split.
Qed.

(** X7.  A resource built on a fetcher that returns a promise is loading
    when [createResource] returns: [pending] without an initial value and
    [refreshing] with one; the promise is tracked, and calling the resource
    or reading [latest] returns the initial value (undefined if none). *)
Theorem createResource_async (h : handle) :
  disabled (key_of source) = false ->
  fetcher (key_of source) (mkInfo initialValue (VBool false)) = Normal (VPromise h) ->
  let w := createResource source fetcher initialValue heap in
  state w = (if is_undefined initialValue then pending else refreshing) /\
  loading w = true /\ currentPromise w = Some h /\
  read w = Normal initialValue /\ latest w = Normal initialValue /\
  error w = VUndefined /\ scheduled w = true.
Proof.
  intros Hk Hf w. subst w. rewrite createResource_fresh.
  rewrite (load_async _ _ _ h); try assumption; try reflexivity.
  unfold read, latest, loading; simpl.
  destruct (is_undefined initialValue); simpl; repeat split.
Qed.

(** X8.  A resource built on a source that is null, undefined or false
    does not call the fetcher: it is [ready] with its initial value if it
    has one and [unresolved] otherwise, and nothing is in flight. *)
Theorem createResource_disabled :
  disabled (key_of source) = true ->
  let w := createResource source fetcher initialValue heap in
  state w = (if is_undefined initialValue then unresolved else ready) /\
  data w = initialValue /\ error w = VUndefined /\ currentPromise w = None /\
  loading w = false /\ fetcher_calls (log w) = 0 /\ microtasks w = [].
Proof.
  intros Hk w. subst w. rewrite createResource_fresh.
  rewrite load_disabled; try assumption; try reflexivity.
  unfold loading; simpl.
  destruct (is_undefined initialValue); simpl; repeat split.
Qed.

End Construction.

Lemma createResource_sync_value_witness :
  let w := createResource None (fun _ _ => Normal (VStr "v")) VUndefined [] in
  state w = ready /\ read w = Normal (VStr "v").
Proof.
  cbv zeta.
  destruct (createResource_sync_value None (fun _ _ => Normal (VStr "v")) VUndefined []
              (VStr "v") eq_refl eq_refl eq_refl) as (H1 & H2 & _).
  split; assumption.
Defined.

Lemma createResource_sync_throw_witness :
  let w := createResource (Some (VNum 0)) (fun _ _ => Throw (VNum 7)) (VStr "kept") [] in
  state w = errored /\ data w = VStr "kept".
Proof.
  cbv zeta.
  destruct (createResource_sync_throw (Some (VNum 0)) (fun _ _ => Throw (VNum 7))
              (VStr "kept") [] (VNum 7) eq_refl eq_refl ltac:(discriminate))
    as (H1 & _ & H3 & _).
  split; assumption.
Defined.

Lemma createResource_async_witness :
  let w := createResource None (returns_promise 4) (VStr "seed") [] in
  state w = refreshing /\ loading w = true.
Proof.
  cbv zeta.
  destruct (createResource_async None (returns_promise 4) (VStr "seed") []
              (Fetched 4) eq_refl eq_refl) as (H1 & H2 & _).
  split; assumption.
Defined.

Lemma createResource_disabled_witness :
  let w := createResource (Some (VBool false)) (returns_promise 4) VUndefined [] in
  state w = unresolved /\ fetcher_calls (log w) = 0.
Proof.
  cbv zeta.
  destruct (createResource_disabled (Some (VBool false)) (returns_promise 4)
              VUndefined [] eq_refl) as (H1 & _ & _ & _ & _ & H6 & _).
  split; assumption.
Defined.

(** ** Switching the source off, and late results *)

Lemma deduped_false_arg (w : world) : deduped (VBool false) w = false.
Proof. reflexivity. Qed.

Lemma stale_completion (r : reaction) (s : settlement) (w : world) :
  currentPromise w <> Some (on r) -> completion_of r s w = w.
Proof.
  intros H. rewrite completion_of_eq.
  destruct (same_promise (currentPromise w) (Some (on r))) eqn:E; [|reflexivity].
  apply same_promise_true in E. contradiction.
Qed.

(** X9.  When the source of a resource turns null, undefined or false, the
    effect's load does not call the fetcher: it drops the tracked fetch and
    the stored error, keeps the data, and leaves the state [ready] if the
    resource has resolved and [unresolved] if not.  The continuation of any
    fetch that completes afterwards changes nothing. *)
Theorem source_switched_off_drops_fetch (v : val) (f : ResourceFetcher) (w : world) :
  dynamic w <> None -> disabled v = true ->
  let w' := step (SourceChange v f) w in
  data w' = data w /\ error w' = VUndefined /\
  state w' = (if resolved w then ready else unresolved) /\
  currentPromise w' = None /\ resolved w' = resolved w /\
  fetcher_calls (log w') = fetcher_calls (log w) /\
  (forall r s, completion_of r s w' = w').
Proof.
  intros Hd Hv w'. subst w'. simpl.
  destruct (dynamic w) as [k0|] eqn:E; [|contradiction].
  rewrite load_disabled; [|reflexivity|exact Hv]. simpl.
  rewrite orb_false_r.
  repeat split.
  intros r s. apply stale_completion. simpl. discriminate.
Qed.

Lemma source_switched_off_drops_fetch_witness :
  let w := createResource (Some (VBool true)) (returns_promise 1) VUndefined [] in
  let w' := step (SourceChange VNull (returns_promise 2)) w in
  state w' = (if resolved w then ready else unresolved) /\ currentPromise w' = None.
Proof.
  cbv zeta.
  destruct (source_switched_off_drops_fetch VNull (returns_promise 2)
              (createResource (Some (VBool true)) (returns_promise 1) VUndefined []))
    as (_ & _ & H3 & H4 & _).
  - vm_compute. discriminate.
  - reflexivity.
  - split; assumption.
Defined.

Lemma settle_cells (h : handle) (s : settlement) (w : world) :
  let w' := snd (settle h s w) in
  data w' = data w /\ error w' = error w /\ state w' = state w /\
  resolved w' = resolved w /\ currentPromise w' = currentPromise w /\
  log w' = log w.
Proof.
  simpl. rewrite settle_eq; simpl.
  destruct (lookup h (settled w)); simpl; repeat split.
Qed.

Lemma passive_step_idle (a : action) (w : world) :
  passive a = true -> currentPromise w = None ->
  let w' := step a w in
  data w' = data w /\ error w' = error w /\ state w' = state w /\
  resolved w' = resolved w /\ currentPromise w' = None /\ log w' = log w.
Proof.
  intros Ha Hp. destruct a as [info f|v f|v|n s|]; try discriminate Ha;
    cbv zeta; unfold step.
  - destruct (settle_cells (Fetched n) s w) as (H1 & H2 & H3 & H4 & H5 & H6).
    rewrite H1, H2, H3, H4, H5, H6. repeat split. exact Hp.
  - destruct (microtasks w) as [|[|r s] rest].
    + repeat split. exact Hp.
    + simpl. repeat split. exact Hp.
    + rewrite run_job_React.
      rewrite (stale_completion r s (with_microtasks rest w))
        by (simpl; rewrite Hp; discriminate).
      destruct (settle_cells (Chained (on r) (derived r)) (Fulfilled (payload s))
                  (with_microtasks rest w)) as (H1 & H2 & H3 & H4 & H5 & H6).
      rewrite H1, H2, H3, H4, H5, H6. simpl. repeat split. exact Hp.
Qed.

(** X10.  While no fetch is tracked, nothing that happens without a call
    (promises settling, microtasks running, in any number and order)
    touches the resource: the data, error and state cells, the resolved
    flag and the log stay as they are.  The results of superseded fetches
    never arrive. *)
Theorem orphaned_results_never_arrive (acts : list action) (w : world) :
  forallb passive acts = true -> currentPromise w = None ->
  let w' := run acts w in
  data w' = data w /\ error w' = error w /\ state w' = state w /\
  resolved w' = resolved w /\ currentPromise w' = None /\ log w' = log w.
Proof.
  revert w. induction acts as [|a acts IH]; intros w Ha Hp; simpl.
  - repeat split. exact Hp.
  - simpl in Ha. apply andb_true_iff in Ha. destruct Ha as [Ha Hrest].
    destruct (passive_step_idle a w Ha Hp) as (H1 & H2 & H3 & H4 & H5 & H6).
    destruct (IH (step a w) Hrest H5) as (I1 & I2 & I3 & I4 & I5 & I6).
    simpl in *. repeat split; congruence.
Qed.

Lemma orphaned_results_never_arrive_witness :
  let w := step (SourceChange (VBool false) (returns_promise 2))
             (createResource (Some (VBool true)) (returns_promise 1) VUndefined []) in
  let w' := run [Microtask; Settle 1 (Fulfilled (VStr "late")); Microtask] w in
  data w' = data w /\ state w' = state w.
Proof.
  cbv zeta.
  destruct (orphaned_results_never_arrive
              [Microtask; Settle 1 (Fulfilled (VStr "late")); Microtask]
              (step (SourceChange (VBool false) (returns_promise 2))
                 (createResource (Some (VBool true)) (returns_promise 1) VUndefined [])))
    as (H1 & _ & H3 & _).
  - reflexivity.
  - vm_compute; reflexivity.
  - split; assumption.
Defined.

(** X11.  The fetch started last wins.  Once a load has started a fetch on
    the promise [h], the continuation of a reaction on any other promise
    changes nothing, whatever it carries; the continuation of a reaction on
    [h] is applied: a fulfilment value becomes the data and the state
    becomes [ready]; a rejection leaves the data and makes the state
    [errored]. *)
Theorem last_started_fetch_wins (f : ResourceFetcher) (arg : val) (w : world) (h : handle) :
  deduped arg w = false -> disabled (source_key w) = false ->
  f (source_key w) (info_of arg w) = Normal (VPromise h) ->
  let w' := snd (load f arg w) in
  (forall r s, on r <> h -> completion_of r s w' = w') /\
  (forall r v, on r = h -> disabled (key r) = false ->
     let w'' := completion_of r (Fulfilled v) w' in
     data w'' = v /\ state w'' = ready /\ error w'' = VUndefined /\
     currentPromise w'' = None) /\
  (forall r e, on r = h ->
     let w'' := completion_of r (Rejected e) w' in
     data w'' = data w /\ state w'' = errored /\ error w'' = castError e /\
     currentPromise w'' = None).
Proof.
  intros Hd Hk Hf w'. subst w'. rewrite (load_async f arg w h Hd Hk Hf).
  split; [|split].
  - intros r s Hne. apply stale_completion. simpl. congruence.
  - intros r v Hon Hkey w''. subst w''. rewrite completion_of_eq. simpl.
    rewrite Hon. destruct (handle_eq_dec h h) as [_|ne]; [|contradiction].
    simpl. rewrite (disabled_false_defined _ Hkey), orb_true_r. repeat split.
  - intros r e Hon w''. subst w''. rewrite completion_of_eq. simpl.
    rewrite Hon. destruct (handle_eq_dec h h) as [_|ne]; [|contradiction].
    simpl. rewrite castError_defined. repeat split.
Qed.

Lemma last_started_fetch_wins_witness :
  let w := createResource None (returns_promise 1) VUndefined [] in
  let w' := snd (load (returns_promise 2) (VBool false) w) in
  completion_of (mkReaction (Fetched 1) (VBool true) 0) (Fulfilled (VStr "old")) w' = w'.
Proof.
  cbv zeta.
  apply (proj1 (last_started_fetch_wins (returns_promise 2) (VBool false)
                  (createResource None (returns_promise 1) VUndefined [])
                  (Fetched 2) eq_refl eq_refl eq_refl)).
  discriminate.
Defined.

(** X12.  Of the continuations run one after the other at most the first
    that is current is applied: once a completion has been applied no fetch
    is tracked, so every later continuation changes nothing until a load
    starts a new fetch.  In particular a promise that the fetcher returned
    twice is applied once. *)
Theorem completion_applied_once (r1 r2 : reaction) (s1 s2 : settlement) (w : world) :
  currentPromise w = Some (on r1) ->
  currentPromise (completion_of r1 s1 w) = None /\
  completion_of r2 s2 (completion_of r1 s1 w) = completion_of r1 s1 w.
Proof.
  intros Hp.
  assert (H : currentPromise (completion_of r1 s1 w) = None).
  { rewrite completion_of_eq, Hp, same_promise_refl. destruct s1; reflexivity. }
  split; [exact H|]. apply stale_completion. rewrite H. discriminate.
Qed.

Lemma completion_applied_once_witness :
  let w := createResource None (returns_promise 1) VUndefined [] in
  let r := mkReaction (Fetched 1) (VBool true) 0 in
  completion_of r (Fulfilled (VNum 2)) (completion_of r (Fulfilled (VNum 1)) w) =
  completion_of r (Fulfilled (VNum 1)) w.
Proof.
  cbv zeta.
  apply (proj2 (completion_applied_once (mkReaction (Fetched 1) (VBool true) 0) _
                  (Fulfilled (VNum 1)) (Fulfilled (VNum 2))
                  (createResource None (returns_promise 1) VUndefined []) eq_refl)).
Defined.

(** ** What the log shows *)

Lemma well_batched_finalized (v err key : val) (w : world) :
  well_batched (log (finalized v err key w)) = well_batched (log w).
Proof.
  simpl. destruct (is_undefined err) eqn:He; simpl.
  - unfold batch_with_data. rewrite He.
    destruct (resolved w || negb (is_undefined key)); reflexivity.
  - unfold batch_without_data. rewrite He. reflexivity.
Qed.

Lemma well_batched_started (h : handle) (k : val) (w : world) :
  well_batched (log (started h k w)) = well_batched (log w).
Proof. simpl. destruct (resolved w); reflexivity. Qed.

Lemma well_batched_load (f : ResourceFetcher) (arg : val) (w : world) :
  well_batched (log (snd (load f arg w))) = well_batched (log w).
Proof.
  destruct (load_paths f arg w); cbn [snd];
    rewrite ?well_batched_finalized, ?well_batched_started; reflexivity.
Qed.

Lemma log_completion_of (r : reaction) (s : settlement) (w : world) :
  well_batched (log (completion_of r s w)) = well_batched (log w) /\
  fetcher_calls (log (completion_of r s w)) = fetcher_calls (log w).
Proof.
  rewrite completion_of_eq.
  destruct (same_promise (currentPromise w) (Some (on r))); [|split; reflexivity].
  destruct s; rewrite well_batched_finalized; split; try reflexivity;
    simpl; destruct (is_undefined (castError e)); reflexivity.
Qed.

Lemma settle_log (h : handle) (s : settlement) (w : world) :
  log (snd (settle h s w)) = log w.
Proof. apply (settle_cells h s w). Qed.

Lemma well_batched_step (a : action) (w : world) :
  well_batched (log (step a w)) = well_batched (log w).
Proof.
  destruct a as [info f|v f|v|n s|]; unfold step.
  - apply well_batched_load.
  - destruct (dynamic w); [|reflexivity]. rewrite well_batched_load. reflexivity.
  - reflexivity.
  - rewrite settle_log. reflexivity.
  - destruct (microtasks w) as [|[|r s] rest]; try reflexivity.
    rewrite run_job_React, settle_log.
    rewrite (proj1 (log_completion_of r s _)). reflexivity.
Qed.

(** X13.  In every reachable world the log is well batched: the state
    cell and the error cell are never written outside a batch and batches
    never nest.  A batch is either a finalization or the start of an
    asynchronous load: a success writes data, then [ready] or [unresolved],
    then clears the error; a failure writes [errored], then the error, and
    no data; a start writes [pending] or [refreshing], then clears the
    error.  Outside batches there are only fetcher calls and the data
    writes of [mutate]. *)
Theorem log_is_well_batched (w : world) :
  reachable w -> well_batched (log w) = true.
Proof.
  induction 1 as [source f iv heap|a w _ IH].
  - unfold createResource. rewrite well_batched_load. reflexivity.
  - rewrite well_batched_step. exact IH.
Qed.

Lemma log_is_well_batched_witness :
  well_batched
    (log (run [Mutate (VNum 1); Settle 1 (Rejected VNull); Microtask; Microtask]
              (createResource None (returns_promise 1) VUndefined []))) = true.
Proof. apply log_is_well_batched. apply reachable_run. constructor. Defined.

Lemma load_calls (f : ResourceFetcher) (arg : val) (w : world) :
  fetcher_calls (log (snd (load f arg w))) =
  (if deduped arg w || disabled (source_key w) then 0 else 1) +
  fetcher_calls (log w).
Proof.
  destruct (load_paths f arg w) as [H|H1 H2|e H1 H2 H3 H4|v H1 H2 H3 H4|h H1 H2 H3];
    cbn [snd].
  - rewrite H. reflexivity.
  - rewrite H1, H2. reflexivity.
  - rewrite H1, H2. simpl. rewrite castError_defined. reflexivity.
  - rewrite H1, H2. reflexivity.
  - rewrite H1, H2. reflexivity.
Qed.

(** X14.  The fetcher is called by loads only, and once per load: a step
    that is a [refetch] or a source change calls it exactly once unless the
    call is suppressed or the source is disabled; [mutate], the settling of
    a promise and the running of a microtask never call it. *)
Theorem fetcher_called_once_per_load (a : action) (w : world) :
  fetcher_calls (log (step a w)) =
  match a with
  | Refetch info _ =>
      (if deduped info w || disabled (source_key w) then 0 else 1) +
      fetcher_calls (log w)
  | SourceChange v _ =>
      match dynamic w with
      | Some _ => (if disabled v then 0 else 1) + fetcher_calls (log w)
      | None => fetcher_calls (log w)
      end
  | Mutate _ | Settle _ _ | Microtask => fetcher_calls (log w)
  end.
Proof.
  destruct a as [info f|v f|v|n s|]; unfold step.
  - apply load_calls.
  - destruct (dynamic w); [|reflexivity]. rewrite load_calls. reflexivity.
  - reflexivity.
  - rewrite settle_log. reflexivity.
  - destruct (microtasks w) as [|[|r s] rest]; try reflexivity.
    rewrite run_job_React, settle_log.
    rewrite (proj2 (log_completion_of r s _)). reflexivity.
Qed.

(** X15.  A load made by the effect, and a [refetch(false)], are never
    suppressed: with the source enabled they call the fetcher even while
    the scheduled flag is set. *)
Theorem source_loads_not_suppressed :
  (forall v f w,
     dynamic w <> None -> disabled v = false ->
     fetcher_calls (log (step (SourceChange v f) w)) = S (fetcher_calls (log w))) /\
  (forall f w,
     disabled (source_key w) = false ->
     fetcher_calls (log (step (Refetch (VBool false) f) w)) = S (fetcher_calls (log w))).
Proof.
  split.
  - intros v f w Hd Hv. rewrite fetcher_called_once_per_load.
    destruct (dynamic w); [|contradiction]. rewrite Hv. reflexivity.
  - intros f w Hk. rewrite fetcher_called_once_per_load.
    rewrite Hk. reflexivity.
Qed.

Lemma source_loads_not_suppressed_witness :
  let w := createResource (Some (VNum 1)) (returns_promise 1) VUndefined [] in
  scheduled w = true /\
  fetcher_calls (log (step (SourceChange (VNum 2) (returns_promise 2)) w)) =
  S (fetcher_calls (log w)) /\
  fetcher_calls (log (step (Refetch (VBool false) (returns_promise 2)) w)) =
  S (fetcher_calls (log w)).
Proof.
  cbv zeta. split; [vm_compute; reflexivity|]. split.
  - apply (proj1 source_loads_not_suppressed).
    + vm_compute. discriminate.
    + reflexivity.
  - apply (proj2 source_loads_not_suppressed). vm_compute; reflexivity.
Defined.

(** ** [mutate] and the fetches *)

(** X16.  The fetcher is given the data the resource holds when it is
    called: after any sequence of [mutate] calls, the next load that
    reaches the fetcher passes the last mutated value as [value]. *)
Theorem fetcher_sees_mutated_value (vs : list val) (v : val) (f : ResourceFetcher)
    (arg : val) (w : world) :
  deduped arg w = false -> disabled (source_key w) = false ->
  let w1 := mutate_all (vs ++ [v]) w in
  exists recent,
    log (snd (load f arg w1)) =
    recent ++ FetcherCall (source_key w) (mkInfo v (default_true arg)) :: log w1 /\
    fetcher_calls recent = 0.
Proof.
  intros Hd Hk w1.
  destruct (mutate_all_frame (vs ++ [v]) w)
    as (_ & _ & _ & _ & Hsch & Hdyn & _).
  fold w1 in Hsch, Hdyn.
  assert (Hd1 : deduped arg w1 = false) by (unfold deduped in *; rewrite Hsch; exact Hd).
  assert (Hkey : source_key w1 = source_key w) by (unfold source_key; rewrite Hdyn; reflexivity).
  assert (Hk1 : disabled (source_key w1) = false) by (rewrite Hkey; exact Hk).
  destruct (load_logs_call f arg w1 Hd1 Hk1) as [recent [Hl Hz]].
  exists recent. split; [|exact Hz].
  rewrite Hl, Hkey. unfold info_of. subst w1.
  rewrite mutate_all_last. reflexivity.
Qed.

Lemma fetcher_sees_mutated_value_witness :
  let w := createResource None (fun _ _ => Normal (VNum 0)) VUndefined [] in
  let w1 := mutate_all ([VNum 1] ++ [VNum 2]) w in
  exists recent,
    log (snd (load (returns_promise 3) VNull w1)) =
    recent ++ FetcherCall (source_key w) (mkInfo (VNum 2) (default_true VNull)) :: log w1 /\
    fetcher_calls recent = 0.
Proof.
  cbv zeta.
  apply (fetcher_sees_mutated_value [VNum 1] (VNum 2) (returns_promise 3) VNull
           (createResource None (fun _ _ => Normal (VNum 0)) VUndefined [])).
  - vm_compute; reflexivity.
  - vm_compute; reflexivity.
Defined.

(** X17.  A [mutate] made while a fetch is in flight does not cancel it:
    the fetch stays tracked, its fulfilment overwrites the mutated value,
    and its rejection keeps the mutated value in the data cell while
    calling the resource throws the normalized error. *)
Theorem mutate_does_not_cancel (v : val) (r : reaction) (w : world) :
  currentPromise w = Some (on r) ->
  let w1 := snd (mutate v w) in
  currentPromise w1 = Some (on r) /\
  (forall x, data (completion_of r (Fulfilled x) w1) = x) /\
  (forall e,
     data (completion_of r (Rejected e) w1) = v /\
     read (completion_of r (Rejected e) w1) = Throw (castError e)).
Proof.
  intros Hp w1. subst w1. split; [exact Hp|]. split.
  - intros x. rewrite completion_of_eq. simpl. rewrite Hp, same_promise_refl.
    reflexivity.
  - intros e. rewrite completion_of_eq. simpl. rewrite Hp, same_promise_refl.
    unfold read; simpl. rewrite castError_defined. simpl. split; reflexivity.
Qed.

Lemma mutate_does_not_cancel_witness :
  let w := createResource None (returns_promise 1) VUndefined [] in
  let r := mkReaction (Fetched 1) (VBool true) 0 in
  data (completion_of r (Fulfilled (VStr "fetched")) (snd (mutate (VStr "typed") w))) =
  VStr "fetched".
Proof.
  cbv zeta.
  apply (proj1 (proj2 (mutate_does_not_cancel (VStr "typed")
                         (mkReaction (Fetched 1) (VBool true) 0)
                         (createResource None (returns_promise 1) VUndefined [])
                         eq_refl))).
Defined.

(** ** The promises handed out *)

Lemma load_nextId (f : ResourceFetcher) (arg : val) (w : world) :
  nextId w <= nextId (snd (load f arg w)).
Proof. destruct (load_paths f arg w); simpl; lia. Qed.

Lemma settle_nextId (h : handle) (s : settlement) (w : world) :
  nextId (snd (settle h s w)) = nextId w.
Proof.
  rewrite settle_eq; simpl. destruct (lookup h (settled w)); reflexivity.
Qed.

Lemma step_nextId (a : action) (w : world) : nextId w <= nextId (step a w).
Proof.
  destruct a as [info f|v f|v|n s|]; unfold step.
  - apply load_nextId.
  - destruct (dynamic w); [|lia].
    apply (load_nextId f (VBool false) (with_dynamic (Some v) w)).
  - simpl. lia.
  - rewrite settle_nextId. lia.
  - destruct (microtasks w) as [|[|r s] rest]; [lia|simpl; lia|].
    rewrite run_job_React, settle_nextId.
    destruct (completion_of_frame r s (with_microtasks rest w)) as (_ & _ & _ & H & _).
    rewrite H. simpl. lia.
Qed.

Lemma run_nextId (acts : list action) (w : world) : nextId w <= nextId (run acts w).
Proof.
  revert w. induction acts as [|a acts IH]; intros w; simpl; [lia|].
  pose proof (step_nextId a w). pose proof (IH (step a w)). lia.
Qed.

Lemma load_returns_promise (f : ResourceFetcher) (arg : val) (w : world) (p : handle) :
  fst (load f arg w) = VPromise p ->
  exists h,
    f (source_key w) (info_of arg w) = Normal (VPromise h) /\
    p = Chained h (nextId w) /\ nextId (snd (load f arg w)) = S (nextId w).
Proof.
  destruct (load_paths f arg w) as [H|H1 H2|e H1 H2 H3 H4|v H1 H2 H3 H4|h H1 H2 H3];
    simpl; try discriminate.
  - intros ->. discriminate.
  - intros H. injection H as <-. exists h. auto.
Qed.

(** X18.  When [load] returns a promise, the fetcher has returned one and
    the promise returned is not the fetcher's but a new one chained on it;
    and whatever happens in between, no later [load] returns that promise
    again. *)
Theorem load_returns_new_promise (f1 f2 : ResourceFetcher) (arg1 arg2 : val)
    (acts : list action) (w : world) (p1 p2 : handle) :
  fst (load f1 arg1 w) = VPromise p1 ->
  fst (load f2 arg2 (run acts (snd (load f1 arg1 w)))) = VPromise p2 ->
  (exists h, f1 (source_key w) (info_of arg1 w) = Normal (VPromise h) /\
             p1 = Chained h (nextId w) /\ p1 <> h) /\
  p1 <> p2.
Proof.
  intros H1 H2.
  destruct (load_returns_promise f1 arg1 w p1 H1) as [h1 [Hf1 [Hp1 Hn1]]].
  destruct (load_returns_promise f2 arg2 _ p2 H2) as [h2 [_ [Hp2 _]]].
  split.
  - exists h1. repeat split; try assumption.
    rewrite Hp1. intro H. exact (Chained_neq h1 (nextId w) (eq_sym H)).
  - pose proof (run_nextId acts (snd (load f1 arg1 w))) as Hle.
    rewrite Hp1, Hp2. intro H. injection H as _ H. lia.
Qed.

Lemma load_returns_new_promise_witness :
  let w := createResource None (fun _ _ => Normal VNull) VUndefined [] in
  Chained (Fetched 1) 0 <> Chained (Fetched 1) 1.
Proof.
  cbv zeta.
  apply (proj2 (load_returns_new_promise (returns_promise 1) (returns_promise 1)
                  VUndefined VUndefined [Microtask]
                  (createResource None (fun _ _ => Normal VNull) VUndefined [])
                  (Chained (Fetched 1) 0) (Chained (Fetched 1) 1)
                  ltac:(vm_compute; reflexivity) ltac:(vm_compute; reflexivity))).
Defined.

(** ** A resource without a source *)

Lemma load_with_dynamic (f : ResourceFetcher) (arg : val) (d : option val) (w : world) :
  source_key (with_dynamic d w) = source_key w ->
  load f arg (with_dynamic d w) =
  (fst (load f arg w), with_dynamic d (snd (load f arg w))).
Proof.
  intros Hk.
  assert (Hd : deduped arg (with_dynamic d w) = deduped arg w) by reflexivity.
  assert (Hi : info_of arg (with_dynamic d w) = info_of arg w) by reflexivity.
  destruct (load_paths f arg w) as [H|H1 H2|e H1 H2 H3 H4|v H1 H2 H3 H4|h H1 H2 H3];
    cbn [fst snd].
  - apply load_deduped. rewrite Hd. exact H.
  - rewrite load_disabled; [reflexivity|rewrite Hd; exact H1|rewrite Hk; exact H2].
  - rewrite (load_throw _ _ _ e);
      [rewrite Hk; reflexivity|rewrite Hd; exact H1|rewrite Hk; exact H2
      |rewrite Hk, Hi; exact H3|exact H4].
  - destruct H3 as [H3|[H3 ->]].
    + rewrite (load_sync _ _ _ v);
        [rewrite Hk; reflexivity|rewrite Hd; exact H1|rewrite Hk; exact H2
        |rewrite Hk, Hi; exact H3|exact H4].
    + rewrite load_throw_undefined;
        [rewrite Hk; reflexivity|rewrite Hd; exact H1|rewrite Hk; exact H2
        |rewrite Hk, Hi; exact H3].
  - rewrite (load_async _ _ _ h);
      [rewrite Hk; reflexivity|rewrite Hd; exact H1|rewrite Hk; exact H2
      |rewrite Hk, Hi; exact H3].
Qed.

Lemma step_with_constant_source (a : action) (w : world) :
  calls_only a = true -> dynamic w = None ->
  step a (with_dynamic (Some (VBool true)) w) =
  with_dynamic (Some (VBool true)) (step a w) /\
  dynamic (step a w) = None.
Proof.
  intros Ha Hd.
  assert (Hk : source_key (with_dynamic (Some (VBool true)) w) = source_key w).
  { unfold source_key; simpl. rewrite Hd. reflexivity. }
  destruct a as [info f|v f|v|n s|]; try discriminate Ha; unfold step.
  - unfold refetch. rewrite load_with_dynamic by exact Hk. split; [reflexivity|].
    destruct (load_paths f info w); simpl; assumption.
  - split; [reflexivity|exact Hd].
  - rewrite !settle_eq. simpl.
    destruct (lookup (Fetched n) (settled w)); split; try reflexivity; exact Hd.
  - simpl. destruct (microtasks w) as [|[|r s] rest]; simpl.
    + split; [reflexivity|exact Hd].
    + split; [reflexivity|exact Hd].
    + unfold bind. rewrite !continuation_eq. rewrite !settle_eq. simpl.
      rewrite !completion_of_eq. simpl.
      destruct (same_promise (currentPromise w) (Some (on r)));
        destruct s; simpl;
        match goal with
        | |- context [lookup ?h ?t] => destruct (lookup h t)
        end; split; try reflexivity; exact Hd.
Qed.

Lemma load_dynamic (f : ResourceFetcher) (arg : val) (w : world) :
  dynamic (snd (load f arg w)) = dynamic w.
Proof. destruct (load_paths f arg w); reflexivity. Qed.

Lemma run_with_constant_source (acts : list action) (w : world) :
  forallb calls_only acts = true -> dynamic w = None ->
  run acts (with_dynamic (Some (VBool true)) w) =
  with_dynamic (Some (VBool true)) (run acts w).
Proof.
  revert w. induction acts as [|a acts IH]; intros w Ha Hd; simpl; [reflexivity|].
  simpl in Ha. apply andb_true_iff in Ha. destruct Ha as [Ha Hrest].
  destruct (step_with_constant_source a w Ha Hd) as [Hs Hd'].
  rewrite Hs. apply IH; assumption.
Qed.

(** X19.  A resource built without a source behaves as one whose source is
    constantly [true]: built on the same fetcher and initial value and taken
    through the same calls, settlements and microtasks, the two are in the
    same world but for the memo over the source; they hold the same cells,
    track the same fetch and answer [refetch] alike. *)
Theorem no_source_is_constant_true (f : ResourceFetcher) (initialValue : val)
    (heap : list (nat * settlement)) (acts : list action) :
  forallb calls_only acts = true ->
  let w := run acts (createResource None f initialValue heap) in
  let w' := run acts (createResource (Some (VBool true)) f initialValue heap) in
  w' = with_dynamic (Some (VBool true)) w /\
  read w' = read w /\ latest w' = latest w /\ state w' = state w /\
  loading w' = loading w /\ error w' = error w /\
  (forall g info, fst (refetch g info w') = fst (refetch g info w)).
Proof.
  intros Ha w w'.
  assert (H0 : createResource (Some (VBool true)) f initialValue heap =
               with_dynamic (Some (VBool true))
                 (createResource None f initialValue heap)).
  { rewrite !createResource_fresh.
    change (fresh (Some (VBool true)) initialValue heap)
      with (with_dynamic (Some (VBool true)) (fresh None initialValue heap)).
    rewrite load_with_dynamic by reflexivity. reflexivity. }
  assert (Hd : dynamic (createResource None f initialValue heap) = None).
  { rewrite createResource_fresh, load_dynamic. reflexivity. }
  assert (Hw : w' = with_dynamic (Some (VBool true)) w).
  { subst w w'. rewrite H0. apply run_with_constant_source; assumption. }
  assert (Hdw : dynamic w = None).
  { subst w. clear w' Hw H0.
    revert Hd. generalize (createResource None f initialValue heap).
    induction acts as [|a acts IH]; intros w0 Hd; simpl; [exact Hd|].
    simpl in Ha. apply andb_true_iff in Ha. destruct Ha as [Ha Hrest].
    apply IH; [exact Hrest|].
    apply (step_with_constant_source a w0 Ha Hd). }
  split; [exact Hw|]. rewrite Hw.
  repeat split.
  intros g info. unfold refetch. rewrite load_with_dynamic; [reflexivity|].
  unfold source_key; simpl. rewrite Hdw. reflexivity.
Qed.

Lemma no_source_is_constant_true_witness :
  let acts := [Refetch VUndefined (returns_promise 2); Microtask;
               Settle 1 (Fulfilled (VNum 1)); Microtask; Mutate VNull] in
  read (run acts (createResource (Some (VBool true)) (returns_promise 1) VUndefined [])) =
  read (run acts (createResource None (returns_promise 1) VUndefined [])).
Proof.
  cbv zeta.
  apply (proj1 (proj2 (no_source_is_constant_true (returns_promise 1) VUndefined []
                         [Refetch VUndefined (returns_promise 2); Microtask;
                          Settle 1 (Fulfilled (VNum 1)); Microtask; Mutate VNull]
                         eq_refl))).
Defined.

(** ** What replaces the data *)

Lemma data_after_load_eq (f : ResourceFetcher) (arg : val) (w : world) :
  data (snd (load f arg w)) = data_after_load f arg w.
Proof.
  unfold data_after_load.
  destruct (load_paths f arg w) as [H|H1 H2|e H1 H2 H3 H4|v H1 H2 H3 H4|h H1 H2 H3];
    cbn [snd].
  - rewrite H. reflexivity.
  - rewrite H1, H2. reflexivity.
  - rewrite H1, H2, H3, H4. simpl. rewrite castError_defined. reflexivity.
  - rewrite H1, H2. simpl. destruct H3 as [H3|[H3 ->]]; rewrite H3.
    + unfold isPromise. rewrite H4. reflexivity.
    + reflexivity.
  - rewrite H1, H2, H3. reflexivity.
Qed.

(** X24.  What the data cell holds after a step.  Apart from [mutate] the
    data is replaced only by a value the fetcher returns at once (a fetcher
    that throws undefined is taken to return undefined) or by the
    fulfilment value of the tracked promise.  A suppressed call, a disabled
    source, a thrown value other than undefined, the start of a fetch, a
    settlement, a rejection and a stale result leave the data as it was. *)
Theorem data_after_step :
  (forall f arg w, data (snd (load f arg w)) = data_after_load f arg w) /\
  (forall a w, data (step a w) = data_after a w) /\
  (forall f arg w,
     deduped arg w = true \/ disabled (source_key w) = true ->
     data (snd (load f arg w)) = data w) /\
  (forall f arg w h,
     f (source_key w) (info_of arg w) = Normal (VPromise h) ->
     data (snd (load f arg w)) = data w) /\
  (forall f arg w e,
     f (source_key w) (info_of arg w) = Throw e -> e <> VUndefined ->
     data (snd (load f arg w)) = data w) /\
  (forall f arg w v,
     deduped arg w = false -> disabled (source_key w) = false ->
     f (source_key w) (info_of arg w) = Normal v -> as_promise v = None ->
     data (snd (load f arg w)) = v) /\
  (forall f arg w,
     deduped arg w = false -> disabled (source_key w) = false ->
     f (source_key w) (info_of arg w) = Throw VUndefined ->
     data (snd (load f arg w)) = VUndefined) /\
  (forall r s rest w,
     microtasks w = React r s :: rest ->
     currentPromise w <> Some (on r) \/ (exists e, s = Rejected e) ->
     data (step Microtask w) = data w).
Proof.
  assert (Hstep : forall a w, data (step a w) = data_after a w).
  { intros a w. destruct a as [info f|v f|v|n s|]; unfold step, data_after.
    - apply data_after_load_eq.
    - destruct (dynamic w); [|reflexivity]. apply data_after_load_eq.
    - reflexivity.
    - apply (settle_cells (Fetched n) s w).
    - destruct (microtasks w) as [|[|r s] rest]; [reflexivity|reflexivity|].
      rewrite run_job_React.
      destruct (settle_cells (Chained (on r) (derived r)) (Fulfilled (payload s))
                  (completion_of r s (with_microtasks rest w))) as (H1 & _).
      rewrite H1, completion_of_eq. simpl.
      destruct (same_promise (currentPromise w) (Some (on r))), s; simpl;
        try reflexivity.
      rewrite castError_defined. reflexivity. }
  split; [exact data_after_load_eq|]. split; [exact Hstep|].
  split; [|split; [|split; [|split; [|split]]]].
  - intros f arg w H. rewrite data_after_load_eq. unfold data_after_load.
    destruct H as [H|H]; rewrite H; [reflexivity|rewrite orb_true_r; reflexivity].
  - intros f arg w h Hf. rewrite data_after_load_eq. unfold data_after_load.
    rewrite Hf. destruct (deduped arg w || disabled (source_key w)); reflexivity.
  - intros f arg w e Hf He. rewrite data_after_load_eq. unfold data_after_load.
    rewrite Hf. apply is_undefined_false in He. rewrite He.
    destruct (deduped arg w || disabled (source_key w)); reflexivity.
  - intros f arg w v Hd Hk Hf Hv. rewrite data_after_load_eq. unfold data_after_load.
    rewrite Hd, Hk, Hf. unfold isPromise. rewrite Hv. reflexivity.
  - intros f arg w Hd Hk Hf. rewrite data_after_load_eq. unfold data_after_load.
    rewrite Hd, Hk, Hf. reflexivity.
  - intros r s rest w Hq H. rewrite Hstep. unfold data_after. rewrite Hq.
    destruct s as [v|e]; [|reflexivity].
    destruct H as [H|[e H]]; [|discriminate].
    destruct (same_promise (currentPromise w) (Some (on r))) eqn:E; [|reflexivity].
    apply same_promise_true in E. contradiction.
Qed.

Lemma data_after_step_witness :
  let w := createResource None (returns_promise 1) (VStr "kept") [] in
  data (snd (load (returns_promise 2) (VBool false) w)) = data w /\
  data (snd (load (fun _ _ => Throw (VNum 3)) (VBool false) w)) = data w /\
  data (snd (load (fun _ _ => Throw VUndefined) (VBool false) w)) = VUndefined /\
  data (step Microtask (step (Settle 1 (Rejected VNull)) (step Microtask w))) =
  data (step (Settle 1 (Rejected VNull)) (step Microtask w)).
Proof.
  cbv zeta. split; [|split; [|split]].
  - apply (proj1 (proj2 (proj2 (proj2 data_after_step)))
             (returns_promise 2) (VBool false) _ (Fetched 2)). reflexivity.
  - apply (proj1 (proj2 (proj2 (proj2 (proj2 data_after_step))))
             (fun _ _ => Throw (VNum 3)) (VBool false) _ (VNum 3)).
    + reflexivity.
    + discriminate.
  - apply (proj1 (proj2 (proj2 (proj2 (proj2 (proj2 (proj2 data_after_step))))))).
    + vm_compute; reflexivity.
    + vm_compute; reflexivity.
    + reflexivity.
  - apply (proj2 (proj2 (proj2 (proj2 (proj2 (proj2 (proj2 data_after_step)))))))
      with (r := mkReaction (Fetched 1) (VBool true) 0) (s := Rejected VNull) (rest := []).
    + vm_compute; reflexivity.
    + right. exists VNull. reflexivity.
Defined.

(** * The wrappers over the reactive graph *)

Module ReactiveFacts.
Import Reactive.

Lemma update_length (id : nat) (v : val) (l : list val) :
  List.length (update id v l) = List.length l.
Proof.
  revert id. induction l as [|x l IH]; intros [|n]; simpl; auto.
Qed.

Lemma nth_update_same (id : nat) (v d : val) (l : list val) :
  id < List.length l -> nth id (update id v l) d = v.
Proof.
  revert id. induction l as [|x l IH]; intros [|n] H; simpl in *; try lia.
  - reflexivity.
  - apply IH. lia.
Qed.

Lemma nth_update_other (id id' : nat) (v d : val) (l : list val) :
  id' <> id -> nth id' (update id v l) d = nth id' l d.
Proof.
  revert id id'. induction l as [|x l IH]; intros [|n] [|m] H; simpl;
    try reflexivity; try contradiction.
  apply IH. congruence.
Qed.

Lemma exec_balanced (c : code) (g : graph) :
  batchDepth (snd (exec c g)) = batchDepth g /\
  activeSub (snd (exec c g)) = activeSub g.
Proof.
  revert g. induction c as [id|id v|e|a IHa b IHb|body IH|body IH]; intros g; simpl.
  - split; reflexivity.
  - split; reflexivity.
  - split; reflexivity.
  - destruct (IHa g) as [Ha1 Ha2].
    destruct (exec a g) as [[x|e] g1]; simpl in *.
    + destruct (IHb g1) as [Hb1 Hb2]. split; congruence.
    + split; assumption.
  - unfold batch, startBatch, endBatch.
    match goal with |- context [exec body ?g0] =>
      destruct (IH g0) as [H1 H2]; destruct (exec body g0) as [r g2] end.
    simpl in *. rewrite H1, H2. split; [lia|reflexivity].
  - unfold untrack, setCurrentSub.
    match goal with |- context [exec body ?g0] =>
      destruct (IH g0) as [H1 H2]; destruct (exec body g0) as [r g2] end.
    simpl in *. split; [exact H1|reflexivity].
Qed.

Lemma exec_no_subscriber (c : code) (g : graph) :
  activeSub g = None -> links (snd (exec c g)) = links g.
Proof.
  revert g. induction c as [id|id v|e|a IHa b IHb|body IH|body IH]; intros g Hs; simpl.
  - rewrite Hs. reflexivity.
  - reflexivity.
  - reflexivity.
  - pose proof (IHa g Hs) as Ha. pose proof (exec_balanced a g) as [_ Hb].
    destruct (exec a g) as [[x|e] g1]; simpl in *.
    + rewrite IHb by congruence. exact Ha.
    + exact Ha.
  - unfold batch, startBatch, endBatch.
    match goal with |- context [exec body ?g0] =>
      pose proof (IH g0 Hs) as H; destruct (exec body g0) as [r g2] end.
    simpl in *. exact H.
  - unfold untrack, setCurrentSub.
    match goal with |- context [exec body ?g0] =>
      pose proof (IH g0 eq_refl) as H; destruct (exec body g0) as [r g2] end.
    simpl in *. exact H.
Qed.

Lemma exec_cells_only (c : code) (g g' : graph) :
  cells g = cells g' ->
  fst (exec c g) = fst (exec c g') /\
  cells (snd (exec c g)) = cells (snd (exec c g')).
Proof.
  revert g g'. induction c as [id|id v|e|a IHa b IHb|body IH|body IH];
    intros g g' Hc; simpl.
  - rewrite Hc. split; reflexivity.
  - rewrite Hc. split; reflexivity.
  - split; [reflexivity|exact Hc].
  - destruct (IHa g g' Hc) as [H1 H2].
    destruct (exec a g) as [r1 g1], (exec a g') as [r1' g1']; simpl in *.
    subst r1'. destruct r1 as [x|e]; [apply IHb; exact H2|split; [reflexivity|exact H2]].
  - unfold batch, startBatch, endBatch.
    match goal with |- context [fst (let (_, _) := exec body ?a in _) = fst (let (_, _) := exec body ?b in _)] =>
      destruct (IH a b Hc) as [H1 H2];
      destruct (exec body a) as [r1 g1], (exec body b) as [r1' g1'] end.
    simpl in *. subst r1'. split; [reflexivity|exact H2].
  - unfold untrack, setCurrentSub.
    match goal with |- context [fst (let (_, _) := exec body ?a in _) = fst (let (_, _) := exec body ?b in _)] =>
      destruct (IH a b Hc) as [H1 H2];
      destruct (exec body a) as [r1 g1], (exec body b) as [r1' g1'] end.
    simpl in *. split; assumption.
Qed.

(** X20.  A signal made by [createSignal] reads back what was put in it:
    a new signal takes the next number, holds its initial value and leaves
    the others as they are; the setter returns the value it has stored, the
    getter then returns that value, and no other signal changes. *)
Theorem signal_round_trip :
  (forall value g,
     let (id, g1) := createSignal value g in
     id = List.length (cells g) /\
     fst (getter id g1) = Normal value /\
     (forall id', id' < List.length (cells g) ->
        fst (getter id' g1) = fst (getter id' g))) /\
  (forall id v g,
     id < List.length (cells g) ->
     fst (setter id v g) = Normal v /\
     fst (getter id (snd (setter id v g))) = Normal v /\
     (forall id', id' <> id ->
        fst (getter id' (snd (setter id v g))) = fst (getter id' g)) /\
     List.length (cells (snd (setter id v g))) = List.length (cells g)).
Proof.
  split.
  - intros value g. simpl. split; [reflexivity|]. split.
    + rewrite app_nth2 by lia. rewrite Nat.sub_diag. reflexivity.
    + intros id' H. rewrite app_nth1 by exact H. reflexivity.
  - intros id v g H. simpl. repeat split.
    + rewrite nth_update_same by exact H. reflexivity.
    + rewrite nth_update_same by exact H. reflexivity.
    + intros id' Hne. rewrite nth_update_other by exact Hne. reflexivity.
    + apply update_length.
Qed.

Lemma signal_round_trip_witness :
  let g := mkGraph [VNum 1; VNum 2] (Some 0) 0 [] in
  fst (setter 1 (VStr "x") g) = Normal (VStr "x") /\
  fst (getter 1 (snd (setter 1 (VStr "x") g))) = Normal (VStr "x").
Proof.
  cbv zeta.
  destruct (proj2 signal_round_trip 1 (VStr "x")
              (mkGraph [VNum 1; VNum 2] (Some 0) 0 []))
    as (H1 & H2 & _).
  - simpl. lia.
  - split; assumption.
Defined.

(** X21.  Whatever a callback does (reads, writes, throws, batches and
    untracked blocks inside one another), when it ends the batch depth and
    the current subscriber are what they were when it began: [batch] closes
    the batch it opened and [untrack] puts the subscriber back also when
    the block throws, and the throw goes on to the caller. *)
Theorem wrappers_restore_the_graph (c : code) (g : graph) :
  batchDepth (snd (exec c g)) = batchDepth g /\
  activeSub (snd (exec c g)) = activeSub g /\
  (forall e, fst (exec c g) = Throw e ->
     fst (batch (exec c) g) = Throw e /\ fst (untrack (exec c) g) = Throw e).
Proof.
  destruct (exec_balanced c g) as [H1 H2]. split; [exact H1|]. split; [exact H2|].
  intros e He. split.
  - unfold batch, startBatch, endBatch.
    match goal with |- context [exec c ?g0] =>
      destruct (exec_cells_only c g g0 eq_refl) as [Hr _];
      destruct (exec c g0) as [r g2] end.
    simpl in *. rewrite <- Hr, He. reflexivity.
  - unfold untrack, setCurrentSub.
    match goal with |- context [exec c ?g0] =>
      destruct (exec_cells_only c g g0 eq_refl) as [Hr _];
      destruct (exec c g0) as [r g2] end.
    simpl in *. rewrite <- Hr, He. reflexivity.
Qed.

Lemma wrappers_restore_the_graph_witness :
  let g := mkGraph [VNum 0] (Some 3) 0 [] in
  let c := Seq (Put 0 (VNum 1)) (Raise (VStr "test error")) in
  fst (exec c g) = Throw (VStr "test error") /\
  fst (batch (exec c) g) = Throw (VStr "test error") /\
  batchDepth (snd (exec (Batch c) g)) = batchDepth g /\
  cells (snd (exec (Batch c) g)) = [VNum 1].
Proof.
  cbv zeta. split; [reflexivity|]. split; [|split].
  - apply (proj2 (proj2 (wrappers_restore_the_graph
                           (Seq (Put 0 (VNum 1)) (Raise (VStr "test error")))
                           (mkGraph [VNum 0] (Some 3) 0 [])))).
    reflexivity.
  - apply (proj1 (wrappers_restore_the_graph
                    (Batch (Seq (Put 0 (VNum 1)) (Raise (VStr "test error"))))
                    (mkGraph [VNum 0] (Some 3) 0 []))).
  - reflexivity.
Defined.

(** X22.  Reads made inside [untrack] record no dependency, and the setter
    of a signal, which reads the signal back untracked, never does; a read
    through the getter under a subscriber records one for that subscriber. *)
Theorem untracked_reads_record_nothing :
  (forall c g, links (snd (exec (Untrack c) g)) = links g) /\
  (forall id v g, links (snd (setter id v g)) = links g) /\
  (forall c g, activeSub g = None -> links (snd (exec c g)) = links g) /\
  (forall id sub g, activeSub g = Some sub ->
     links (snd (getter id g)) = (sub, id) :: links g).
Proof.
  split; [|split; [|split]].
  - intros c g. simpl. unfold untrack, setCurrentSub.
    match goal with |- context [exec c ?g0] =>
      pose proof (exec_no_subscriber c g0 eq_refl) as H;
      destruct (exec c g0) as [r g2] end.
    simpl in *. exact H.
  - intros id v g. reflexivity.
  - exact exec_no_subscriber.
  - intros id sub g H. simpl. rewrite H. reflexivity.
Qed.

Lemma untracked_reads_record_nothing_witness :
  let g := mkGraph [VNum 1] (Some 7) 0 [] in
  links (snd (getter 0 g)) = (7, 0) :: links g /\
  links (snd (exec (Untrack (Get 0)) g)) = links g.
Proof.
  cbv zeta. split.
  - apply (proj2 (proj2 (proj2 untracked_reads_record_nothing))). reflexivity.
  - apply (proj1 untracked_reads_record_nothing).
Defined.

(** X23.  Batching and untracking change neither what a callback stores
    nor how it ends: the signals hold the same values after [batch(fn)] and
    after [untrack(fn)] as after [fn] alone, the writes made before a throw
    included; [untrack] returns what [fn] returns, and [batch] throws
    exactly when [fn] throws and returns undefined otherwise. *)
Theorem wrappers_keep_values (c : code) (g : graph) :
  cells (snd (exec (Batch c) g)) = cells (snd (exec c g)) /\
  cells (snd (exec (Untrack c) g)) = cells (snd (exec c g)) /\
  fst (exec (Untrack c) g) = fst (exec c g) /\
  fst (exec (Batch c) g) =
  match fst (exec c g) with
  | Normal _ => Normal VUndefined
  | Throw e => Throw e
  end.
Proof.
  simpl. unfold batch, untrack, startBatch, endBatch, setCurrentSub.
  repeat match goal with |- context [exec c ?g0] =>
    lazymatch g0 with
    | g => fail
    | _ => destruct (exec_cells_only c g g0 eq_refl) as [? ?];
           destruct (exec c g0) as [? ?]
    end end.
  simpl in *. subst. repeat split; auto.
Qed.


End ReactiveFacts.
